(** * Sculpting example of three-mesh-bvh ([example/sculpt.js])

    A shallow embedding of the sculpting code: the wheel and pointer handlers
    [init] installs, and [render] with its region query, its displacement
    loop and its normal refresh.

    Numbers.  JavaScript numbers are IEEE binary64 values and the position and
    normal attributes are typed arrays.  The model is written once over an
    interface [Number] of the operations the code applies to numbers, and read
    at the instance [Float64]: primitive binary64 floats, as the program
    runs.  Concrete executions are evaluated on that instance, and what
    depends on how binary64 rounds, compares or treats [NaN] is proved on it.
    Statements that use no property of the numbers are proved for every
    [Number], hence for binary64.  Where a statement compares the program
    with geometry, the geometry is that of the rational numbers the binary64
    values stand for.

    Collaborators.  three.js value classes ([Vector3], [Box3], [Sphere],
    [Triangle], [Matrix4], [BufferAttribute]) are transcribed from three.js.
    The picking ray, [MeshBVH.shapecast] and the triangle/sphere test live
    outside [example/sculpt.js]; how they enter the model is said where they
    are introduced. *)

From Stdlib Require Import List Bool Arith ZArith Lia Sorted Permutation.
From Stdlib Require Floats.
From Stdlib Require QArith Qpower Lqa.
Import ListNotations.

Set Implicit Arguments.

(** ** Numbers *)

Class Number (F : Type) : Type := {
  fzero : F;
  fone : F;
  fadd : F -> F -> F;
  fsub : F -> F -> F;
  fmul : F -> F -> F;
  fdiv : F -> F -> F;
  fneg : F -> F;
  (** [Math.sqrt] *)
  fsqrt : F -> F;
  (** [a > b], [a <= b], [a === b] *)
  fgt : F -> F -> bool;
  fle : F -> F -> bool;
  feq : F -> F -> bool;
  (** [Math.max], [Math.min] *)
  fmax : F -> F -> F;
  fmin : F -> F -> F;
  (** the truth value of a number, as [||] and [if] read it *)
  ftruthy : F -> bool;
  (** the number an absent value ([undefined]) becomes in arithmetic *)
  fnan : F;
  (** what a store into a [Float32Array] keeps of a number *)
  fround : F -> F;
  (** an integer as a number *)
  fint : Z -> F
}.

Declare Scope num_scope.
Delimit Scope num_scope with num.
Infix "+" := fadd : num_scope.
Infix "-" := fsub : num_scope.
Infix "*" := fmul : num_scope.
Infix "/" := fdiv : num_scope.
Notation "- a" := (fneg a) : num_scope.
Infix ">?" := fgt (at level 70) : num_scope.
Infix "<=?" := fle : num_scope.

(** A decimal literal [p/q], e.g. [0.05] as [lit 5 100]: the quotient of two
    exactly represented integers, hence in [Float64] the binary64 value
    nearest to the decimal. *)
Definition lit {F} `{Number F} (p q : Z) : F := (fint p / fint q)%num.

(** ** JavaScript containers *)

(** [new Set( list )]: the distinct elements, in order of first insertion,
    which is also the order [forEach] visits them in. *)
Definition Set_add (s : list nat) (i : nat) : list nat :=
  if existsb (Nat.eqb i) s then s else s ++ [i].

Definition new_Set (l : list nat) : list nat := fold_left Set_add l [].

(** A property key of the object [indexToTriangles]: the decimal string of an
    array index, or the string of [undefined].  [for ... in] visits integer
    keys in ascending order and then the other keys, which is the order the
    association list is kept in. *)
Definition Key := option nat.

Definition key_eqb (a b : Key) : bool :=
  match a, b with
  | Some m, Some n => Nat.eqb m n
  | None, None => true
  | _, _ => false
  end.

Definition key_ltb (a b : Key) : bool :=
  match a, b with
  | Some m, Some n => Nat.ltb m n
  | Some _, None => true
  | None, _ => false
  end.

Definition key_dec (a b : Key) : {a = b} + {a <> b}.
Proof. decide equality. apply Nat.eq_dec. Defined.

Fixpoint obj_get {V : Type} (o : list (Key * V)) (k : Key) : option V :=
  match o with
  | [] => None
  | (k', v) :: rest => if key_eqb k k' then Some v else obj_get rest k
  end.

Fixpoint obj_set {V : Type} (o : list (Key * V)) (k : Key) (v : V) : list (Key * V) :=
  match o with
  | [] => [(k, v)]
  | (k', v') :: rest =>
      if key_eqb k k' then (k, v) :: rest
      else if key_ltb k k' then (k, v) :: (k', v') :: rest
      else (k', v') :: obj_set rest k v
  end.

Definition keys {V : Type} (o : list (Key * V)) : list Key := map fst o.

(** [~ ~ n] on a non-negative integer: [ToInt32]. *)
Definition ToInt32 (n : Z) : Z := ((n + 2 ^ 31) mod 2 ^ 32 - 2 ^ 31)%Z.

Inductive Intersection := NOT_INTERSECTED | INTERSECTED | CONTAINED.

(** The two readings of the numbers [a], [b], [c] the primitive test receives:
    the offsets of the triangle's corners in the index attribute, which is how
    [render] consumes them ([indexAttr.getX( i )], [~ ~ ( i / 3 )]), and the
    vertex indices stored at those offsets, which is how the specification
    words it.  The model is parametric in the reading. *)
Definition cornerOffsets (indexAttr : list nat) (t : nat) : nat * nat * nat :=
  (t * 3, t * 3 + 1, t * 3 + 2).

Definition cornerVertices (indexAttr : list nat) (t : nat) : nat * nat * nat :=
  (nth (t * 3) indexAttr 0, nth (t * 3 + 1) indexAttr 0, nth (t * 3 + 2) indexAttr 0).

Section Model.
Context {F : Type} `{Number F}.
Local Open Scope num_scope.

(** ** three.js values

    Transcribed from three.js (r125): the methods [render] calls, each as a
    function of the object it is called on. *)


Record Vector2 := Vec2 { px : F; py : F }.

Record Vector3 := Vec3 { vx : F; vy : F; vz : F }.

Record Box3 := mkBox3 { bmin : Vector3; bmax : Vector3 }.

Record Sphere := mkSphere { center : Vector3; radius : F }.

Record Triangle := mkTriangle { ta : Vector3; tb : Vector3; tc : Vector3 }.

(** [Matrix4.elements], column-major. *)
Record Matrix4 := mkMatrix4 {
  e0 : F; e1 : F; e2 : F; e3 : F;
  e4 : F; e5 : F; e6 : F; e7 : F;
  e8 : F; e9 : F; e10 : F; e11 : F;
  e12 : F; e13 : F; e14 : F; e15 : F
}.

(** *** Vector3 *)

Definition v_add (this v : Vector3) : Vector3 :=
  Vec3 (vx this + vx v) (vy this + vy v) (vz this + vz v).

Definition subVectors (a b : Vector3) : Vector3 :=
  Vec3 (vx a - vx b) (vy a - vy b) (vz a - vz b).

Definition multiplyScalar (this : Vector3) (s : F) : Vector3 :=
  Vec3 (vx this * s) (vy this * s) (vz this * s).

Definition divideScalar (this : Vector3) (s : F) : Vector3 :=
  multiplyScalar this (fone / s).

Definition addScaledVector (this v : Vector3) (s : F) : Vector3 :=
  Vec3 (vx this + vx v * s) (vy this + vy v * s) (vz this + vz v * s).

Definition cross (a b : Vector3) : Vector3 :=
  Vec3 (vy a * vz b - vz a * vy b)
       (vz a * vx b - vx a * vz b)
       (vx a * vy b - vy a * vx b).

Definition lengthSq (this : Vector3) : F :=
  vx this * vx this + vy this * vy this + vz this * vz this.

Definition length3 (this : Vector3) : F := fsqrt (lengthSq this).

(** [this.divideScalar( this.length() || 1 )] *)
Definition normalize (this : Vector3) : Vector3 :=
  let l := length3 this in
  divideScalar this (if ftruthy l then l else fone).

Definition distanceToSquared (this v : Vector3) : F :=
  let dx := vx this - vx v in
  let dy := vy this - vy v in
  let dz := vz this - vz v in
  dx * dx + dy * dy + dz * dz.

Definition distanceTo (this v : Vector3) : F :=
  fsqrt (distanceToSquared this v).

Definition clamp (this lo hi : Vector3) : Vector3 :=
  Vec3 (fmax (vx lo) (fmin (vx hi) (vx this)))
       (fmax (vy lo) (fmin (vy hi) (vy this)))
       (fmax (vz lo) (fmin (vz hi) (vz this))).

Definition applyMatrix4 (this : Vector3) (m : Matrix4) : Vector3 :=
  let x := vx this in let y := vy this in let z := vz this in
  let w := fone / (e3 m * x + e7 m * y + e11 m * z + e15 m) in
  Vec3 ((e0 m * x + e4 m * y + e8 m * z + e12 m) * w)
       ((e1 m * x + e5 m * y + e9 m * z + e13 m) * w)
       ((e2 m * x + e6 m * y + e10 m * z + e14 m) * w).

Definition transformDirection (this : Vector3) (m : Matrix4) : Vector3 :=
  let x := vx this in let y := vy this in let z := vz this in
  normalize (Vec3 (e0 m * x + e4 m * y + e8 m * z)
                  (e1 m * x + e5 m * y + e9 m * z)
                  (e2 m * x + e6 m * y + e10 m * z)).

(** *** Sphere and Box3 *)

Definition containsPoint (s : Sphere) (point : Vector3) : bool :=
  distanceToSquared point (center s) <=? radius s * radius s.

Definition clampPoint (box : Box3) (point : Vector3) : Vector3 :=
  clamp point (bmin box) (bmax box).

(** [Sphere.intersectsBox] is [Box3.intersectsSphere]: the point of the box
    closest to the centre lies in the sphere. *)
Definition intersectsBox (s : Sphere) (box : Box3) : bool :=
  distanceToSquared (clampPoint box (center s)) (center s)
    <=? radius s * radius s.

(** *** Triangle *)

Definition getNormal (t : Triangle) : Vector3 :=
  let target := cross (subVectors (tc t) (tb t)) (subVectors (ta t) (tb t)) in
  let targetLengthSq := lengthSq target in
  if targetLengthSq >? fzero
  then multiplyScalar target (fone / fsqrt targetLengthSq)
  else Vec3 fzero fzero fzero.

(** *** Matrix4 *)

Definition zero4 : Matrix4 :=
  mkMatrix4 fzero fzero fzero fzero fzero fzero fzero fzero
            fzero fzero fzero fzero fzero fzero fzero fzero.

Definition identity4 : Matrix4 :=
  mkMatrix4 fone fzero fzero fzero fzero fone fzero fzero
            fzero fzero fone fzero fzero fzero fzero fone.

Definition invert (m : Matrix4) : Matrix4 :=
  let n11 := e0 m in let n21 := e1 m in let n31 := e2 m in let n41 := e3 m in
  let n12 := e4 m in let n22 := e5 m in let n32 := e6 m in let n42 := e7 m in
  let n13 := e8 m in let n23 := e9 m in let n33 := e10 m in let n43 := e11 m in
  let n14 := e12 m in let n24 := e13 m in let n34 := e14 m in let n44 := e15 m in
  let t11 := n23 * n34 * n42 - n24 * n33 * n42 + n24 * n32 * n43
             - n22 * n34 * n43 - n23 * n32 * n44 + n22 * n33 * n44 in
  let t12 := n14 * n33 * n42 - n13 * n34 * n42 - n14 * n32 * n43
             + n12 * n34 * n43 + n13 * n32 * n44 - n12 * n33 * n44 in
  let t13 := n13 * n24 * n42 - n14 * n23 * n42 + n14 * n22 * n43
             - n12 * n24 * n43 - n13 * n22 * n44 + n12 * n23 * n44 in
  let t14 := n14 * n23 * n32 - n13 * n24 * n32 - n14 * n22 * n33
             + n12 * n24 * n33 + n13 * n22 * n34 - n12 * n23 * n34 in
  let det := n11 * t11 + n21 * t12 + n31 * t13 + n41 * t14 in
  if feq det fzero then zero4 else
  let detInv := fone / det in
  mkMatrix4
    (t11 * detInv)
    ((n24 * n33 * n41 - n23 * n34 * n41 - n24 * n31 * n43
      + n21 * n34 * n43 + n23 * n31 * n44 - n21 * n33 * n44) * detInv)
    ((n22 * n34 * n41 - n24 * n32 * n41 + n24 * n31 * n42
      - n21 * n34 * n42 - n22 * n31 * n44 + n21 * n32 * n44) * detInv)
    ((n23 * n32 * n41 - n22 * n33 * n41 - n23 * n31 * n42
      + n21 * n33 * n42 + n22 * n31 * n43 - n21 * n32 * n43) * detInv)
    (t12 * detInv)
    ((n13 * n34 * n41 - n14 * n33 * n41 + n14 * n31 * n43
      - n11 * n34 * n43 - n13 * n31 * n44 + n11 * n33 * n44) * detInv)
    ((n14 * n32 * n41 - n12 * n34 * n41 - n14 * n31 * n42
      + n11 * n34 * n42 + n12 * n31 * n44 - n11 * n32 * n44) * detInv)
    ((n12 * n33 * n41 - n13 * n32 * n41 + n13 * n31 * n42
      - n11 * n33 * n42 - n12 * n31 * n43 + n11 * n32 * n43) * detInv)
    (t13 * detInv)
    ((n14 * n23 * n41 - n13 * n24 * n41 - n14 * n21 * n43
      + n11 * n24 * n43 + n13 * n21 * n44 - n11 * n23 * n44) * detInv)
    ((n12 * n24 * n41 - n14 * n22 * n41 + n14 * n21 * n42
      - n11 * n24 * n42 - n12 * n21 * n44 + n11 * n22 * n44) * detInv)
    ((n13 * n22 * n41 - n12 * n23 * n41 - n13 * n21 * n42
      + n11 * n23 * n42 + n12 * n21 * n43 - n11 * n22 * n43) * detInv)
    (t14 * detInv)
    ((n13 * n24 * n31 - n14 * n23 * n31 + n14 * n21 * n33
      - n11 * n24 * n33 - n13 * n21 * n34 + n11 * n23 * n34) * detInv)
    ((n14 * n22 * n31 - n12 * n24 * n31 - n14 * n21 * n32
      + n11 * n24 * n32 + n12 * n21 * n34 - n11 * n22 * n34) * detInv)
    ((n12 * n23 * n31 - n13 * n22 * n31 + n13 * n21 * n32
      - n11 * n23 * n32 - n12 * n21 * n33 + n11 * n22 * n33) * detInv).

(** *** BufferAttribute

    An attribute is its array.  [getX] on the index attribute (item size 1)
    answers [undefined] past the end, here [None]; a position or normal
    attribute has item size 3, reading past its end yields an absent value
    and writing past its end is ignored, as typed arrays do. *)

Definition getX (indexAttr : list nat) (i : nat) : option nat :=
  nth_error indexAttr i.

Definition elem (array : list F) (k : nat) : F := nth k array fnan.

Definition fromBufferAttribute (attr : list F) (index : option nat) : Vector3 :=
  match index with
  | Some i => Vec3 (elem attr (i * 3)) (elem attr (i * 3 + 1)) (elem attr (i * 3 + 2))
  | None => Vec3 fnan fnan fnan
  end.

Fixpoint store (array : list F) (k : nat) (v : F) : list F :=
  match array, k with
  | [], _ => []
  | _ :: rest, O => fround v :: rest
  | a :: rest, S k' => a :: store rest k' v
  end.

Definition setXYZ (attr : list F) (index : option nat) (x y z : F) : list F :=
  match index with
  | Some i => store (store (store attr (i * 3) x) (i * 3 + 1) y) (i * 3 + 2) z
  | None => attr
  end.


(** ** The spatial index *)

(** Modelled from the spec: the bounds tree [computeBoundsTree] builds is not
    in [example/sculpt.js].  A node has its box, and either a range of
    triangles ([offset], [count]) or two children.  The boxes are those
    computed when the tree was built; [render] never refits them. *)
Inductive MeshBVHNode :=
| Leaf (boundingBox : Box3) (offset count : nat)
| Inner (boundingBox : Box3) (left right : MeshBVHNode).

(** Modelled from the spec: the triangles below a node, in order. *)
Fixpoint trianglesUnder (n : MeshBVHNode) : list nat :=
  match n with
  | Leaf _ offset count => seq offset count
  | Inner _ l r => trianglesUnder l ++ trianglesUnder r
  end.

(** Modelled from the spec: the triangle handed to the primitive test, read
    from the index and position attributes as they are when it is tested. *)
Definition setTriangle (indexAttr : list nat) (posAttr : list F) (t : nat) : Triangle :=
  mkTriangle (fromBufferAttribute posAttr (getX indexAttr (t * 3)))
             (fromBufferAttribute posAttr (getX indexAttr (t * 3 + 1)))
             (fromBufferAttribute posAttr (getX indexAttr (t * 3 + 2))).

Section Shapecast.
(** What the two callbacks close over and change. *)
Variable Closure : Type.
(** The three numbers a triangle is handed to the primitive test with. *)
Variable triangleArgs : list nat -> nat -> nat * nat * nat.
Variable indexAttr : list nat.
Variable posAttr : list F.
Variable intersectsBoundsFunc : Box3 -> Intersection.
Variable intersectsTriangleFunc :
  Triangle -> nat -> nat -> nat -> bool -> Closure -> bool * Closure.

(** Modelled from the spec: the primitive test on each triangle of a list,
    stopping at the first one for which it answers [true]. *)
Fixpoint iterateOverTriangles (ts : list nat) (contained : bool) (st : Closure)
    : bool * Closure :=
  match ts with
  | [] => (false, st)
  | t :: rest =>
      let '(a, b, c) := triangleArgs indexAttr t in
      let '(stop, st') :=
        intersectsTriangleFunc (setTriangle indexAttr posAttr t) a b c contained st in
      if stop then (true, st') else iterateOverTriangles rest contained st'
  end.

(** Modelled from the spec: [MeshBVH.shapecast] is not in [example/sculpt.js].
    The region test is put to a node's box: [NOT_INTERSECTED] prunes the
    subtree, [CONTAINED] hands every triangle below the node to the primitive
    test marked as contained, [INTERSECTED] descends, and at a leaf hands its
    triangles over unmarked.  A [true] from the primitive test ends the
    traversal. *)
Fixpoint shapecast (n : MeshBVHNode) (st : Closure) : bool * Closure :=
  match n with
  | Leaf box offset count =>
      match intersectsBoundsFunc box with
      | NOT_INTERSECTED => (false, st)
      | INTERSECTED => iterateOverTriangles (seq offset count) false st
      | CONTAINED => iterateOverTriangles (seq offset count) true st
      end
  | Inner box l r =>
      match intersectsBoundsFunc box with
      | NOT_INTERSECTED => (false, st)
      | CONTAINED => iterateOverTriangles (trianglesUnder n) true st
      | INTERSECTED =>
          let '(stop, st') := shapecast l st in
          if stop then (true, st') else shapecast r st'
      end
  end.

End Shapecast.

(** ** The scene *)

Record BufferGeometry := mkGeometry {
  index : list nat;
  position : list F;
  normal : list F;
  position_needsUpdate : bool;
  normal_needsUpdate : bool;
  boundsTree : MeshBVHNode
}.

Record Mesh := mkMesh { geometry : BufferGeometry; matrixWorld : Matrix4 }.

(** What [render] reads of a raycast hit: [hit.point] and [hit.face.normal]. *)
Record Hit := mkHit { point : Vector3; face_normal : Vector3 }.

Record Params := mkParams { size : F; intensity : F }.

(** What [example/sculpt.js] calls but does not define. *)
Class Collaborators : Type := {
  Camera : Type;
  (** [raycaster.setFromCamera( mouse, camera )] followed by
      [raycaster.intersectObject( targetMesh, true )[ 0 ]] *)
  intersectObject : Camera -> Vector2 -> Mesh -> option Hit;
  (** [tri.intersectsSphere( sphere )] *)
  intersectsSphere : Triangle -> Sphere -> bool;
  (** the numbers [a], [b], [c] [shapecast] passes with a triangle *)
  triangleArgs : list nat -> nat -> nat * nat * nat;
  (** what a dat.GUI number controller declared with [.min( lo ).max( hi )
      .step( st )] stores when it is given [v] *)
  setValue : F -> F -> F -> F -> F
}.

Context {C : Collaborators}.

Record State := mkState {
  params : Params;
  controls_active : bool;
  controls_enabled : bool;
  brush_visible : bool;
  brush_scale : Vector3;
  brush_position : Vector3;
  (** the pair [brush.quaternion.setFromUnitVectors] was last given *)
  brush_quaternion : Vector3 * Vector3;
  mouse : Vector2;
  lastMouse : Vector2;
  mouseState : bool;
  lastMouseState : bool;
  camera : Camera;
  targetMesh : Mesh
}.

(** ** The region query (lines 252-310) *)

(** The eight corners in the order of the three nested loops. *)
Definition corners (box : Box3) : list Vector3 :=
  let lo := bmin box in
  let hi := bmax box in
  flat_map (fun x =>
    flat_map (fun y =>
      map (fun z =>
        Vec3 (if Nat.eqb x 0 then vx lo else vx hi)
             (if Nat.eqb y 0 then vy lo else vy hi)
             (if Nat.eqb z 0 then vz lo else vz hi))
        [0; 1]%nat)
      [0; 1]%nat)
    [0; 1]%nat.

(** The region test: the first callback given to [shapecast]. *)
Definition intersectsBounds (sphere : Sphere) (box : Box3) : Intersection :=
  let intersects := intersectsBox sphere box in
  if intersects then
    if forallb (containsPoint sphere) (corners box) then CONTAINED else INTERSECTED
  else
    if intersects then INTERSECTED else NOT_INTERSECTED.

(** The primitive test: the second callback; it closes over [indices]. *)
Definition intersectsTriangle (sphere : Sphere)
    (tri : Triangle) (a b c : nat) (contained : bool) (indices : list nat)
    : bool * list nat :=
  (false,
   if contained || intersectsSphere tri sphere
   then indices ++ [a; b; c]
   else indices).

Definition regionQuery (sphere : Sphere) (g : BufferGeometry) : list nat :=
  snd (shapecast triangleArgs (index g) (position g)
         (intersectsBounds sphere) (intersectsTriangle sphere)
         (boundsTree g) []).

(** ** The displacement loop (lines 320-345) *)

(** One call of the function given to [indexSet.forEach]: the state is the
    position attribute and the object [indexToTriangles]. *)
Definition displace (indexAttr : list nat) (tempVec2 tempVec3 : Vector3)
    (p : Params) (st : list F * list (Key * list Z)) (i : nat)
    : list F * list (Key * list Z) :=
  let '(posAttr, indexToTriangles) := st in
  let index := getX indexAttr i in
  let tempVec := fromBufferAttribute posAttr index in
  let dist := distanceTo tempVec tempVec2 in
  if dist >? size p then st
  else
    let intensity' := fone - dist / size p in
    let tempVec := addScaledVector tempVec tempVec3 (intensity' * intensity p) in
    let posAttr := setXYZ posAttr index (vx tempVec) (vy tempVec) (vz tempVec) in
    let arr := match obj_get indexToTriangles index with
               | Some arr => arr
               | None => []
               end in
    (posAttr, obj_set indexToTriangles index (arr ++ [ToInt32 (Z.of_nat (i / 3))])).

Definition displacementPass (indexAttr : list nat) (tempVec2 tempVec3 : Vector3)
    (p : Params) (indexSet : list nat) (posAttr : list F)
    : list F * list (Key * list Z) :=
  fold_left (displace indexAttr tempVec2 tempVec3 p) indexSet (posAttr, []).

(** ** The normal refresh (lines 347-377) *)

(** The body of [for ( const index in indexToTriangles )] up to the value it
    stores: [for ( const tri in arr )] visits the keys [0 .. arr.length - 1]
    of the array. *)
Definition vertexNormal (indexAttr : list nat) (posAttr : list F) (arr : list Z)
    : Vector3 :=
  let tempVec :=
    fold_left (fun tempVec tri =>
        let i3 := (tri * 3)%nat in
        let triangle :=
          mkTriangle (fromBufferAttribute posAttr (getX indexAttr (i3 + 0)))
                     (fromBufferAttribute posAttr (getX indexAttr (i3 + 1)))
                     (fromBufferAttribute posAttr (getX indexAttr (i3 + 2))) in
        v_add tempVec (getNormal triangle))
      (seq 0 (length arr)) (Vec3 fzero fzero fzero) in
  multiplyScalar tempVec (fone / fint (Z.of_nat (length arr))).

Definition refreshNormals (indexAttr : list nat) (posAttr : list F)
    (indexToTriangles : list (Key * list Z)) (normalAttr : list F) : list F :=
  fold_left (fun normalAttr entry =>
      let tempVec := vertexNormal indexAttr posAttr (snd entry) in
      setXYZ normalAttr (fst entry) (vx tempVec) (vy tempVec) (vz tempVec))
    indexToTriangles normalAttr.

(** ** One stroke (lines 249-377) *)

(** [tempVec3]: the direction the vertices are pushed along. *)
Definition referenceDirection (m : Mesh) (hit : Hit) : Vector3 :=
  transformDirection (face_normal hit) (matrixWorld m).

Definition brushSphere (p : Params) (m : Mesh) (hit : Hit) : Sphere :=
  let inverseMatrix := invert (matrixWorld m) in
  mkSphere (applyMatrix4 (point hit) inverseMatrix) (size p).

(** [indices] once [shapecast] has returned. *)
Definition strokeIndices (p : Params) (m : Mesh) (hit : Hit) : list nat :=
  regionQuery (brushSphere p m hit) (geometry m).

(** The position attribute and [indexToTriangles] once [forEach] has
    returned. *)
Definition strokeDisplacement (p : Params) (m : Mesh) (hit : Hit)
    : list F * list (Key * list Z) :=
  let g := geometry m in
  let inverseMatrix := invert (matrixWorld m) in
  let indexSet := new_Set (strokeIndices p m hit) in
  let tempVec2 := applyMatrix4 (point hit) inverseMatrix in
  let tempVec3 := referenceDirection m hit in
  displacementPass (index g) tempVec2 tempVec3 p indexSet (position g).

Definition stroke (p : Params) (m : Mesh) (hit : Hit) : BufferGeometry :=
  let g := geometry m in
  let indices := strokeIndices p m hit in
  let posAttr := fst (strokeDisplacement p m hit) in
  let indexToTriangles := snd (strokeDisplacement p m hit) in
  match indices with
  | [] =>
      mkGeometry (index g) posAttr (normal g)
        (position_needsUpdate g) (normal_needsUpdate g) (boundsTree g)
  | _ :: _ =>
      mkGeometry (index g) posAttr
        (refreshNormals (index g) posAttr indexToTriangles (normal g))
        true true (boundsTree g)
  end.

(** ** The frame (lines 222-397) *)

Definition normalZ : Vector3 := Vec3 fzero fzero fone.

Definition render (s : State) : State :=
  let s' :=
    if controls_active s then
      mkState (params s) (controls_active s) (controls_enabled s)
        false (brush_scale s) (brush_position s) (brush_quaternion s)
        (mouse s) (lastMouse s) (mouseState s) (lastMouseState s)
        (camera s) (targetMesh s)
    else
      match intersectObject (camera s) (mouse s) (targetMesh s) with
      | Some hit =>
          mkState (params s) (controls_active s) false
            true (Vec3 (size (params s)) (size (params s)) (lit 1 10))
            (point hit) (normalZ, face_normal hit)
            (mouse s) (lastMouse s) (mouseState s) (lastMouseState s)
            (camera s)
            (if mouseState s || lastMouseState s
             then mkMesh (stroke (params s) (targetMesh s) hit)
                         (matrixWorld (targetMesh s))
             else targetMesh s)
      | None =>
          mkState (params s) (controls_active s) true
            false (brush_scale s) (brush_position s) (brush_quaternion s)
            (mouse s) (lastMouse s) (mouseState s) (lastMouseState s)
            (camera s) (targetMesh s)
      end in
  mkState (params s') (controls_active s') (controls_enabled s')
    (brush_visible s') (brush_scale s') (brush_position s') (brush_quaternion s')
    (mouse s') (mouse s') (mouseState s') (mouseState s')
    (camera s') (targetMesh s').

(** ** The handlers installed by [init] (lines 121-218) *)

Inductive Event :=
| mousemove (clientX clientY innerWidth innerHeight : F)
| mousedown (buttons : N)
| mouseup (buttons : N)
| wheel (deltaY : F) (deltaMode : N)
| controls_start
| controls_end
(** the orbit controls moving the camera *)
| camera_change (c : Camera)
(** the controllers of the folder [Sculpting] *)
| gui_size (v : F)
| gui_intensity (v : F)
(** the animation frame *)
| frame.

Definition with_params (s : State) (p : Params) : State :=
  mkState p (controls_active s) (controls_enabled s)
    (brush_visible s) (brush_scale s) (brush_position s) (brush_quaternion s)
    (mouse s) (lastMouse s) (mouseState s) (lastMouseState s)
    (camera s) (targetMesh s).

Definition with_pointer (s : State) (m : Vector2) (pressed : bool) : State :=
  mkState (params s) (controls_active s) (controls_enabled s)
    (brush_visible s) (brush_scale s) (brush_position s) (brush_quaternion s)
    m (lastMouse s) pressed (lastMouseState s)
    (camera s) (targetMesh s).

Definition with_controls (s : State) (active : bool) (c : Camera) : State :=
  mkState (params s) active (controls_enabled s)
    (brush_visible s) (brush_scale s) (brush_position s) (brush_quaternion s)
    (mouse s) (lastMouse s) (mouseState s) (lastMouseState s)
    c (targetMesh s).

(** The [wheel] listener (lines 197-218). *)
Definition onWheel (deltaY : F) (deltaMode : N) (p : Params) : Params :=
  let delta := deltaY in
  let delta := if N.eqb deltaMode 1 then delta * fint 40 else delta in
  let delta := if N.eqb deltaMode 2 then delta * fint 40 else delta in
  let size' := size p + delta * lit 5 10000 in
  mkParams (fmax (fmin size' (lit 25 100)) (lit 5 100)) (intensity p).

Definition handle (e : Event) (s : State) : State :=
  match e with
  | mousemove clientX clientY innerWidth innerHeight =>
      with_pointer s
        (Vec2 (clientX / innerWidth * fint 2 - fone)
              (- (clientY / innerHeight) * fint 2 + fone))
        (mouseState s)
  | mousedown buttons | mouseup buttons =>
      with_pointer s (mouse s) (negb (N.eqb (N.land buttons 1) 0))
  | wheel deltaY deltaMode => with_params s (onWheel deltaY deltaMode (params s))
  | controls_start => with_controls s true (camera s)
  | controls_end => with_controls s false (camera s)
  | camera_change c => with_controls s (controls_active s) c
  | gui_size v =>
      with_params s
        (mkParams (setValue (lit 5 100) (lit 25 100) (lit 1 100) v)
                  (intensity (params s)))
  | gui_intensity v =>
      with_params s
        (mkParams (size (params s))
                  (setValue (lit 1 1000) (lit 1 100) (lit 1 1000) v))
  | frame => render s
  end.

Definition run (trace : list Event) (s : State) : State :=
  fold_left (fun s e => handle e s) trace s.

(** The parameters [init] starts from (lines 32-38). *)
Definition params0 : Params := mkParams (lit 1 10) (lit 2 1000).

End Model.

Arguments Vector2 F : clear implicits.
Arguments Vector3 F : clear implicits.
Arguments Box3 F : clear implicits.
Arguments Sphere F : clear implicits.
Arguments Triangle F : clear implicits.
Arguments Matrix4 F : clear implicits.
Arguments MeshBVHNode F : clear implicits.
Arguments BufferGeometry F : clear implicits.
Arguments Mesh F : clear implicits.
Arguments Hit F : clear implicits.
Arguments Params F : clear implicits.
Arguments Collaborators F : clear implicits.

(** ** Binary64 numbers, as the program runs *)

Module Float64.

Definition js_gt (a b : PrimFloat.float) : bool := PrimFloat.ltb b a.

(** [Math.max] and [Math.min]: [NaN] if either argument is, and [-0] below
    [+0]. *)
Definition js_max (a b : PrimFloat.float) : PrimFloat.float :=
  if PrimFloat.is_nan a || PrimFloat.is_nan b then PrimFloat.nan
  else if PrimFloat.ltb a b then b
  else if PrimFloat.ltb b a then a
  else if PrimFloat.get_sign a then b else a.

Definition js_min (a b : PrimFloat.float) : PrimFloat.float :=
  if PrimFloat.is_nan a || PrimFloat.is_nan b then PrimFloat.nan
  else if PrimFloat.ltb a b then a
  else if PrimFloat.ltb b a then b
  else if PrimFloat.get_sign a then a else b.

Definition js_truthy (a : PrimFloat.float) : bool :=
  negb (PrimFloat.is_nan a || PrimFloat.is_zero a).

(** [Math.fround]: the nearest binary32 value, ties to even. *)
Definition Math_fround (a : PrimFloat.float) : PrimFloat.float :=
  match FloatOps.Prim2SF a with
  | SpecFloat.S754_finite s m e =>
      FloatOps.SF2Prim (SpecFloat.binary_round_aux 24 128 s (Zpos m) e SpecFloat.loc_Exact)
  | _ => a
  end.

Definition of_int (n : Z) : PrimFloat.float :=
  match n with
  | Z0 => PrimFloat.zero
  | Zpos _ => PrimFloat.of_uint63 (Uint63.of_Z n)
  | Zneg p => PrimFloat.opp (PrimFloat.of_uint63 (Uint63.of_Z (Zpos p)))
  end.

#[global] Instance number : Number PrimFloat.float := {
  fzero := PrimFloat.zero;
  fone := PrimFloat.one;
  fadd := PrimFloat.add;
  fsub := PrimFloat.sub;
  fmul := PrimFloat.mul;
  fdiv := PrimFloat.div;
  fneg := PrimFloat.opp;
  fsqrt := PrimFloat.sqrt;
  fgt := js_gt;
  fle := PrimFloat.leb;
  feq := PrimFloat.eqb;
  fmax := js_max;
  fmin := js_min;
  ftruthy := js_truthy;
  fnan := PrimFloat.nan;
  fround := Math_fround;
  fint := of_int
}.

End Float64.

(** ** The vocabulary of the statements *)

(** The order [for ... in] relies on: keys strictly ascending. *)
Definition ascending {V : Type} (o : list (Key * V)) : Prop :=
  StronglySorted (fun a b => key_ltb a b = true) (keys o).

Section Vocabulary.
Context {F : Type} `{Number F}.
Local Open Scope num_scope.

(** What a vertex reads back after a write that fits the array. *)
Definition stored (v : Vector3 F) : Vector3 F :=
  Vec3 (fround (vx v)) (fround (vy v)) (fround (vz v)).

(** The test of line 326 on the position a vertex has in [posAttr]. *)
Definition beyondBrush (tempVec2 : Vector3 F) (p : Params F)
    (posAttr : list F) (k : Key) : bool :=
  (distanceTo (fromBufferAttribute posAttr k) tempVec2 >? size p)%num.

(** The position line 334 writes for a vertex read from [posAttr]. *)
Definition pushed (tempVec2 tempVec3 : Vector3 F) (p : Params F)
    (posAttr : list F) (k : Key) : Vector3 F :=
  let tempVec := fromBufferAttribute posAttr k in
  let dist := distanceTo tempVec tempVec2 in
  addScaledVector tempVec tempVec3 ((fone - dist / size p) * intensity p)%num.

(** What one call of the loop body does to the position attribute, for the
    vertex its index leads to. *)
Definition moveVertex (tempVec2 tempVec3 : Vector3 F) (p : Params F)
    (k : Key) (posAttr : list F) : list F :=
  if beyondBrush tempVec2 p posAttr k then posAttr
  else
    let v := pushed tempVec2 tempVec3 p posAttr k in
    setXYZ posAttr k (vx v) (vy v) (vz v).

(** What holds of the loop state once the elements [visited] of the set have
    been handled: the object has a key for exactly the visited vertices that
    pass the test on their position before the stroke, its keys ascend, and a
    vertex that fails that test or is yet to be visited still has the
    position it had. *)
Definition loopInvariant (indexAttr : list nat) (tempVec2 : Vector3 F)
    (p : Params F) (pos0 : list F)
    (visited : list nat) (st : list F * list (Key * list Z)) : Prop :=
  (forall k, In k (keys (snd st)) <->
             In k (map (getX indexAttr) visited) /\ beyondBrush tempVec2 p pos0 k = false) /\
  (forall k, beyondBrush tempVec2 p pos0 k = true \/ ~ In k (map (getX indexAttr) visited) ->
             fromBufferAttribute (fst st) k = fromBufferAttribute pos0 k) /\
  ascending (snd st).

(** The brush centre in mesh space ([tempVec2]). *)
Definition brushCenter (m : Mesh F) (hit : Hit F) : Vector3 F :=
  applyMatrix4 (point hit) (invert (matrixWorld m)).

(** The size the [wheel] listener computes before it clamps it (line 213). *)
Definition wheelRaw (deltaY : F) (deltaMode : N) (p : Params F) : F :=
  let delta := deltaY in
  let delta := if N.eqb deltaMode 1 then (delta * fint 40)%num else delta in
  let delta := if N.eqb deltaMode 2 then (delta * fint 40)%num else delta in
  (size p + delta * lit 5 10000)%num.

(** *** What the specification states, for comparison *)

(** The mean of the normalised face normals of the triangles recorded for a
    vertex: the triangles whose numbers are the elements of [arr]. *)
Definition meanOfRecordedNormals (indexAttr : list nat) (posAttr : list F)
    (arr : list Z) : Vector3 F :=
  let sum :=
    fold_left (fun acc tri =>
        v_add acc (getNormal (setTriangle indexAttr posAttr (Z.to_nat tri))))
      arr (Vec3 fzero fzero fzero) in
  multiplyScalar sum (fone / fint (Z.of_nat (length arr))).

(** The position stated for a vertex within the radius: its position before
    the stroke plus the reference direction scaled by
    [(1 - dist / radius) * intensity], as the array keeps it. *)
Definition statedPosition (tempVec2 tempVec3 : Vector3 F) (p : Params F)
    (pos0 : list F) (k : Key) : Vector3 F :=
  stored (pushed tempVec2 tempVec3 p pos0 k).

(** The hit normal taken into mesh space: transformed by the inverse of the
    world matrix, the matrix that takes the hit point into mesh space. *)
Definition directionIntoMeshSpace (m : Mesh F) (hit : Hit F) : Vector3 F :=
  transformDirection (face_normal hit) (invert (matrixWorld m)).

Context {C : Collaborators F}.

(** Every vertex a recorded index leads to has its normal refreshed. *)
Definition refreshCoversTouched
    (p : Params F) (m : Mesh F) (hit : Hit F) : Prop :=
  forall i, In i (strokeIndices p m hit) ->
    In (getX (index (geometry m)) i) (keys (snd (strokeDisplacement p m hit))).

(** The stroke driver is idle: an orbit gesture is active, or the picking ray
    misses the mesh. *)
Definition idle (s : State) : Prop :=
  controls_active s = true \/
  intersectObject (camera s) (mouse s) (targetMesh s) = None.

(** Every animation frame of the trace finds the driver idle. *)
Fixpoint framesIdle (trace : list Event) (s : State) : Prop :=
  match trace with
  | [] => True
  | e :: rest => (e = frame -> idle s) /\ framesIdle rest (handle e s)
  end.

End Vocabulary.

(** *** The region query, the incidence map and the frames *)

Section QueryVocabulary.
Context {F : Type} `{Number F} {C : Collaborators F}.

(** The numbers a triangle is recorded with, in the order of
    [indices.push( a, b, c )]. *)
Definition tripleOf (indexAttr : list nat) (t : nat) : list nat :=
  let '(a, b, c) := triangleArgs indexAttr t in [a; b; c].

(** The triangles below a node that the two callbacks accept: none when the
    region test prunes the node's box, all of them when it answers
    [CONTAINED], and otherwise those of the children, or at a leaf those for
    which [tri.intersectsSphere( sphere )] holds. *)
Fixpoint acceptedTriangles (sphere : Sphere F) (indexAttr : list nat)
    (posAttr : list F) (n : MeshBVHNode F) : list nat :=
  match n with
  | Leaf box offset count =>
      match intersectsBounds sphere box with
      | NOT_INTERSECTED => []
      | INTERSECTED =>
          filter (fun t => intersectsSphere (setTriangle indexAttr posAttr t) sphere)
                 (seq offset count)
      | CONTAINED => seq offset count
      end
  | Inner box l r =>
      match intersectsBounds sphere box with
      | NOT_INTERSECTED => []
      | INTERSECTED =>
          acceptedTriangles sphere indexAttr posAttr l ++
          acceptedTriangles sphere indexAttr posAttr r
      | CONTAINED => trianglesUnder n
      end
  end.

(** No event of the trace reports the primary button as held. *)
Definition buttonUp (trace : list Event) : Prop :=
  forall buttons,
    In (mousedown buttons) trace \/ In (mouseup buttons) trace ->
    N.odd buttons = false.

End QueryVocabulary.

(** A number recorded for a vertex comes from an element of the set that
    leads to the vertex: it is [~ ~ ( i / 3 )] for such an element [i]. *)
Definition recordedFrom (indexAttr visited : list nat) (k : Key) (t : Z) : Prop :=
  exists i, In i visited /\ getX indexAttr i = k /\ t = ToInt32 (Z.of_nat (i / 3)).

(** What holds of [indexToTriangles] once the elements [visited] have been
    handled: no array is empty, none is longer than the number of visited
    elements that lead to its vertex, and each of its numbers comes from such
    an element. *)
Definition incidenceSound (indexAttr visited : list nat)
    (indexToTriangles : list (Key * list Z)) : Prop :=
  forall k arr, obj_get indexToTriangles k = Some arr ->
    arr <> [] /\
    length arr <= count_occ key_dec (map (getX indexAttr) visited) k /\
    forall t, In t arr -> recordedFrom indexAttr visited k t.

(** *** Binary64 *)

Module Binary64.

(** A zero of either sign, or [NaN]. *)
Definition zeroish (x : PrimFloat.float) : Prop :=
  (exists s, FloatOps.Prim2SF x = SpecFloat.S754_zero s) \/
  FloatOps.Prim2SF x = SpecFloat.S754_nan.

(** An infinity of either sign, or [NaN]. *)
Definition infinite (x : PrimFloat.float) : Prop :=
  (exists s, FloatOps.Prim2SF x = SpecFloat.S754_infinity s) \/
  FloatOps.Prim2SF x = SpecFloat.S754_nan.

(** A zero or a finite value other than zero: neither an infinity nor
    [NaN]. *)
Definition finiteSF (a : SpecFloat.spec_float) : Prop :=
  match a with
  | SpecFloat.S754_finite _ _ _ | SpecFloat.S754_zero _ => True
  | _ => False
  end.

Definition finite (x : PrimFloat.float) : Prop := finiteSF (FloatOps.Prim2SF x).

Definition finiteVector (v : Vector3 PrimFloat.float) : Prop :=
  finite (vx v) /\ finite (vy v) /\ finite (vz v).

(** A zero of either sign. *)
Definition signedZero (x : PrimFloat.float) : Prop :=
  exists s, FloatOps.Prim2SF x = SpecFloat.S754_zero s.

(** The same number, up to the sign of a zero: [-0] and [+0] are one number,
    and [===] does not tell them apart. *)
Definition sameNumber (a b : PrimFloat.float) : Prop :=
  a = b \/ (signedZero a /\ signedZero b).

(** The same, of the values binary64 numbers stand for. *)
Definition sameSF (x y : SpecFloat.spec_float) : Prop :=
  x = y \/
  ((exists s, x = SpecFloat.S754_zero s) /\ (exists s, y = SpecFloat.S754_zero s)).

Definition sameVector (u v : Vector3 PrimFloat.float) : Prop :=
  sameNumber (vx u) (vx v) /\ sameNumber (vy u) (vy v) /\ sameNumber (vz u) (vz v).

(** A value a [Float32Array] holds. *)
Definition float32 (x : PrimFloat.float) : Prop := Float64.Math_fround x = x.

(** [1.0 - ( dist / params.size )] of line 332 for the vertex [k] read from
    [posAttr]. *)
Definition falloff (tempVec2 : Vector3 PrimFloat.float) (p : Params PrimFloat.float)
    (posAttr : list PrimFloat.float) (k : Key) : PrimFloat.float :=
  PrimFloat.sub PrimFloat.one
    (PrimFloat.div (distanceTo (fromBufferAttribute posAttr k) tempVec2) (size p)).

(** The stroke meets no infinity and no [NaN]: the position array holds
    finite values of a [Float32Array], the direction of line 319 is finite,
    and so is the falloff of every vertex within the radius that a recorded
    index leads to. *)
Definition finiteStroke {C : Collaborators PrimFloat.float}
    (p : Params PrimFloat.float) (m : Mesh PrimFloat.float)
    (hit : Hit PrimFloat.float) : Prop :=
  Forall finite (position (geometry m)) /\
  Forall float32 (position (geometry m)) /\
  finiteVector (referenceDirection m hit) /\
  forall i, In i (strokeIndices p m hit) ->
    beyondBrush (brushCenter m hit) p (position (geometry m))
                (getX (index (geometry m)) i) = false ->
    finite (falloff (brushCenter m hit) p (position (geometry m))
                    (getX (index (geometry m)) i)).

(** The integer [m * 2 ^ (e + 1074)] of a finite value [m * 2 ^ e]: every
    finite binary64 value is a multiple of [2 ^ -1074]. *)
Definition scaled (a : SpecFloat.spec_float) : Z :=
  match a with
  | SpecFloat.S754_finite s m e => (if s then -1 else 1) * (Zpos m * 2 ^ (e + 1074))
  | _ => 0
  end.

(** [lo <= x && x <= hi] as binary64 compares: false when [x] is [NaN]. *)
Definition within (lo hi x : PrimFloat.float) : Prop :=
  PrimFloat.leb lo x = true /\ PrimFloat.leb x hi = true.

(** The ranges lines 124 and 125 declare for the size and the intensity. *)
Definition validParams (p : Params PrimFloat.float) : Prop :=
  within (lit 5 100) (lit 25 100) (size p) /\
  within (lit 1 1000) (lit 1 100) (intensity p).

(** What lines 124 and 125 rely on dat.GUI for, the contract of a number
    controller: declared with [.min( lo ).max( hi )], [lo <= hi], and given a
    number, it stores a value between [lo] and [hi]. *)
Definition guiKeepsRange {C : Collaborators PrimFloat.float} : Prop :=
  forall lo hi step v,
    PrimFloat.leb lo hi = true -> PrimFloat.is_nan v = false ->
    within lo hi (setValue lo hi step v).

(** Every wheel event and every controller event of the trace carries a
    number: no [deltaY] and no value given to a controller is [NaN]. *)
Definition carriesNumbers {C : Collaborators PrimFloat.float}
    (trace : list Event) : Prop :=
  forall e, In e trace ->
    match e with
    | wheel deltaY _ => PrimFloat.is_nan deltaY = false
    | gui_size v | gui_intensity v => PrimFloat.is_nan v = false
    | _ => True
    end.

End Binary64.

(** *** The geometry of binary64 data, in rational numbers *)

Module Exactly.
Import QArith.
Local Open Scope Q_scope.

(** The rational number a finite binary64 value stands for. *)
Definition valueOf (x : PrimFloat.float) : Q :=
  match FloatOps.Prim2SF x with
  | SpecFloat.S754_finite s m e =>
      (if s then -1 else 1) * inject_Z (Zpos m) * (2 ^ e)
  | _ => 0
  end.

Definition pointOf (v : Vector3 PrimFloat.float) : Vector3 Q :=
  Vec3 (valueOf (vx v)) (valueOf (vy v)) (valueOf (vz v)).

Definition squaredDistance (q c : Vector3 Q) : Q :=
  (vx q - vx c) * (vx q - vx c) + (vy q - vy c) * (vy q - vy c) +
  (vz q - vz c) * (vz q - vz c).

(** A point lies in the closed ball. *)
Definition inSphere (s : Sphere PrimFloat.float) (q : Vector3 Q) : Prop :=
  squaredDistance q (pointOf (center s)) <= valueOf (radius s) * valueOf (radius s).

(** A point lies in the box. *)
Definition inBox (b : Box3 PrimFloat.float) (q : Vector3 Q) : Prop :=
  (valueOf (vx (bmin b)) <= vx q <= valueOf (vx (bmax b))) /\
  (valueOf (vy (bmin b)) <= vy q <= valueOf (vy (bmax b))) /\
  (valueOf (vz (bmin b)) <= vz q <= valueOf (vz (bmax b))).

(** The box is not empty. *)
Definition validBox (b : Box3 PrimFloat.float) : Prop :=
  valueOf (vx (bmin b)) <= valueOf (vx (bmax b)) /\
  valueOf (vy (bmin b)) <= valueOf (vy (bmax b)) /\
  valueOf (vz (bmin b)) <= valueOf (vz (bmax b)).

(** The sphere contains all eight corners of the box. *)
Definition cornersInside (s : Sphere PrimFloat.float) (b : Box3 PrimFloat.float) : Prop :=
  forall q, In q (corners b) -> inSphere s (pointOf q).

(** The sphere and the box have a point in common. *)
Definition meets (s : Sphere PrimFloat.float) (b : Box3 PrimFloat.float) : Prop :=
  exists q : Vector3 Q, inBox b q /\ inSphere s q.

(** [x] is finite and stands for [v]: the computation that gave [x] met no
    rounding error, no overflow and no [NaN]. *)
Definition exactly (x : PrimFloat.float) (v : Q) : Prop :=
  Binary64.finite x /\ valueOf x == v.

(** The arithmetic of the region test is exact on this sphere and this box:
    their coordinates are finite, and the squared radius and the squared
    distances the test compares (of the point [Box3.clampPoint] gives and of
    the eight corners) are computed without rounding error. *)
Definition computedExactly (s : Sphere PrimFloat.float) (b : Box3 PrimFloat.float) : Prop :=
  Binary64.finiteVector (center s) /\
  Binary64.finiteVector (bmin b) /\ Binary64.finiteVector (bmax b) /\
  exactly (PrimFloat.mul (radius s) (radius s))
          (valueOf (radius s) * valueOf (radius s)) /\
  forall q, q = clampPoint b (center s) \/ In q (corners b) ->
    exactly (distanceToSquared q (center s))
            (squaredDistance (pointOf q) (pointOf (center s))).

End Exactly.

(** ** A scene in binary64 *)

Module Scene.
Import PrimFloat.
Local Open Scope float_scope.

(** Five vertices and two triangles that share vertex 0: triangle 0 is
    (0, 1, 2) in the plane z = 0, triangle 1 is (3, 0, 4) and rises to
    vertex 3.  Vertex 4 lies farther than the brush radius from vertex 0.
    Every coordinate is a binary32 value. *)
Definition positions : list float :=
  [ 0; 0; 0;
    0.0625; 0; 0;
    0; 0.0625; 0;
    -0.0625; 0; 0.03125;
    -0.0625; 0.125; 0 ].

Definition normals : list float :=
  [ 0; 0; 1;  0; 0; 1;  0; 0; 1;  0; 0; 1;  0; 0; 1 ].

Definition indexBuffer : list nat := [0; 1; 2; 3; 0; 4]%nat.

(** The bounds tree: a root over two leaves, one per triangle. *)
Definition tree : MeshBVHNode float :=
  Inner (mkBox3 (Vec3 (-0.0625) 0 0) (Vec3 0.0625 0.125 0.03125))
    (Leaf (mkBox3 (Vec3 0 0 0) (Vec3 0.0625 0.0625 0)) 0 1)
    (Leaf (mkBox3 (Vec3 (-0.0625) 0 0) (Vec3 0 0.125 0.03125)) 1 1).

Definition fanGeometry : BufferGeometry float :=
  mkGeometry indexBuffer positions normals false false tree.

(** The mesh as the example places it: no transformation. *)
Definition mesh : Mesh float := mkMesh fanGeometry identity4.

(** The pointer over vertex 0, on triangle 0. *)
Definition hit : Hit float := mkHit (Vec3 0 0 0) (Vec3 0 0 1).

(** A triangle/sphere test for the scene: a corner of the triangle lies in
    the sphere.  Where it answers [true] the triangle does meet the sphere;
    the executions below consult it on triangle 1 only, which has vertex 0 at
    the brush centre. *)
Definition cornerInSphere (t : Triangle float) (s : Sphere float) : bool :=
  containsPoint s (ta t) || containsPoint s (tb t) || containsPoint s (tc t).

(** The collaborators of the scene, for either reading of the numbers
    [shapecast] passes. *)
Definition world (args : list nat -> nat -> nat * nat * nat) : Collaborators float :=
  {| Camera := unit;
     intersectObject := fun _ _ _ => Some hit;
     intersectsSphere := cornerInSphere;
     triangleArgs := args;
     setValue := fun lo hi _ v => Float64.js_max lo (Float64.js_min hi v) |}.

(** The state of a frame with the button held over the mesh. *)
Definition pressed (args : list nat -> nat -> nat * nat * nat)
    (active : bool) : @State float (world args) :=
  @mkState float (world args)
    params0 active true false (Vec3 1 1 1) (Vec3 0 0 0)
    (Vec3 0 0 1, Vec3 0 0 1) (Vec2 0 0) (Vec2 0 0) true false tt mesh.

(** A stroke interrupted by an orbit gesture: the gesture starts, two frames
    pass with the button held and the pointer moving, and the button is
    released. *)
Definition interrupted : list (@Event float (world cornerOffsets)) :=
  [ controls_start; frame; mousemove 400 300 800 600; frame; mouseup 0 ].

(** The frame with the button held, under the reading of [a], [b], [c] as
    offsets into the index attribute. *)
Definition after : BufferGeometry float :=
  geometry (targetMesh (render (pressed cornerOffsets false))).

(** The pointer far from the mesh (a hit the bounds tree has no box near). *)
Definition farHit : Hit float := mkHit (Vec3 10 10 10) (Vec3 0 0 1).

(** The same mesh turned a quarter turn about the z axis. *)
Definition quarterTurn : Matrix4 float :=
  mkMatrix4 0 1 0 0  (-1) 0 0 0  0 0 1 0  0 0 0 1.

Definition turnedMesh : Mesh float := mkMesh fanGeometry quarterTurn.

Definition turnedHit : Hit float := mkHit (Vec3 0 0 0) (Vec3 1 0 0).

(** A world matrix that scales the mesh to a point: [Matrix4.invert] has no
    inverse to give. *)
Definition collapsed : Matrix4 float :=
  mkMatrix4 0 0 0 0  0 0 0 0  0 0 0 0  0 0 0 1.

Definition collapsedMesh : Mesh float := mkMesh fanGeometry collapsed.

(** The button released after a frame that saw it held. *)
Definition released : @State float (world cornerOffsets) :=
  handle (mouseup 0) (render (pressed cornerOffsets false)).

(** What follows the release: the pointer moves, the wheel turns, frames
    pass. *)
Definition afterRelease : list (@Event float (world cornerOffsets)) :=
  [ mousemove 400 300 800 600; frame; wheel 1 0; frame ].

Local Set Warnings "-inexact-float".

(** The parameters with the intensity at zero. *)
Definition still : Params float := mkParams (lit 1 10) 0.

(** The fan with the first coordinate of vertex 0 a negative zero. *)
Definition signedPositions : list float :=
  [ neg_zero; 0; 0;
    0.0625; 0; 0;
    0; 0.0625; 0;
    -0.0625; 0; 0.03125;
    -0.0625; 0.125; 0 ].

Definition signedMesh : Mesh float :=
  mkMesh (mkGeometry indexBuffer signedPositions normals false false tree) identity4.

(** A sphere of radius 0.25 about the origin and a box with a corner at
    (0.15, 0.2, 0); a sphere of radius 0.1225 and a box whose corner nearest
    to the centre is (0.0343, 0.1176, 0).  Each decimal stands for the
    binary64 value nearest to it. *)
Definition quarterSphere : Sphere float := mkSphere (Vec3 0 0 0) 0.25.

Definition cornerBox : Box3 float := mkBox3 (Vec3 0 0 0) (Vec3 0.15 0.2 0).

Definition eighthSphere : Sphere float := mkSphere (Vec3 0 0 0) 0.1225.

Definition touchingBox : Box3 float :=
  mkBox3 (Vec3 0.0343 0.1176 0) (Vec3 1 1 0).

(** A box whose [min] lies beyond its [max] along x: it holds no point. *)
Definition hollowBox : Box3 float := mkBox3 (Vec3 0.125 0 0) (Vec3 (-0.125) 0 0).

(** A sphere and a box whose coordinates are multiples of 1/8: the region
    test meets no rounding on them. *)
Definition halfSphere : Sphere float := mkSphere (Vec3 0.25 0.5 0.125) 0.5.

Definition dyadicBox : Box3 float := mkBox3 (Vec3 0 0.25 0) (Vec3 0.5 0.75 0.25).

(** One wide triangle around the hit point, its corners farther from it than
    the brush radius, in a single leaf; and collaborators whose
    triangle/sphere test accepts it, as the triangle holds the brush
    centre. *)
Definition widePositions : list float :=
  [ 0.125; 0; 0;  -0.125; 0.125; 0;  -0.125; -0.125; 0 ].

Definition wideGeometry : BufferGeometry float :=
  mkGeometry [0; 1; 2]%nat widePositions [0; 0; 1;  0; 0; 1;  0; 0; 1]
    false false
    (Leaf (mkBox3 (Vec3 (-0.125) (-0.125) 0) (Vec3 0.125 0.125 0)) 0 1).

Definition wideMesh : Mesh float := mkMesh wideGeometry identity4.

Definition wideWorld : Collaborators float :=
  {| Camera := unit;
     intersectObject := fun _ _ _ => Some hit;
     intersectsSphere := fun _ _ => true;
     triangleArgs := cornerOffsets;
     setValue := fun lo hi _ v => Float64.js_max lo (Float64.js_min hi v) |}.

(** The button held over the mesh after a wheel event whose [deltaY] is
    [NaN], as line 213 makes of the [undefined] it reads from an event
    dispatched without a [deltaY]. *)
Definition afterNaN : @State float (world cornerOffsets) :=
  handle (wheel nan 0) (pressed cornerOffsets false).

(** The wheel turned far down, both controllers given negative values, the
    wheel turned without bound, then a frame. *)
Definition abuse : list (@Event float (world cornerOffsets)) :=
  [ wheel (-1000) 0; gui_size (-1); gui_intensity (-1);
    wheel neg_infinity 2; frame ].

(** Two strokes with the wheel turned in between. *)
Definition twoStrokes : list (@Event float (world cornerOffsets)) :=
  [ frame; wheel 16 0; frame ].

End Scene.

(** * Properties *)

(** ** Containers *)

Lemma Set_add_In (s : list nat) (i j : nat) :
  In j (Set_add s i) <-> j = i \/ In j s.
Proof.
  unfold Set_add. destruct (existsb (Nat.eqb i) s) eqn:E.
  - apply existsb_exists in E. destruct E as [x [Hx Hix]].
    apply Nat.eqb_eq in Hix. subst x. split; [tauto|].
    intros [->|Hj]; assumption.
  - rewrite in_app_iff. simpl. split.
    + intros [Hj|[Hj|[]]]; auto.
    + intros [->|Hj]; auto.
Qed.

Lemma fold_Set_add_In (l s : list nat) (j : nat) :
  In j (fold_left Set_add l s) <-> In j l \/ In j s.
Proof.
  revert s. induction l as [|i l IH]; intros s; simpl.
  - tauto.
  - rewrite IH, Set_add_In. split.
    + intros [Hj|[->|Hj]]; auto.
    + intros [[->|Hj]|Hj]; auto.
Qed.

Lemma new_Set_In (l : list nat) (j : nat) : In j (new_Set l) <-> In j l.
Proof. unfold new_Set. rewrite fold_Set_add_In. simpl. tauto. Qed.

Lemma Set_add_NoDup (s : list nat) (i : nat) : NoDup s -> NoDup (Set_add s i).
Proof.
  intros Hs. unfold Set_add. destruct (existsb (Nat.eqb i) s) eqn:E; [assumption|].
  apply NoDup_app; [assumption|repeat constructor; simpl; tauto|].
  intros a Ha [->|[]].
  assert (existsb (Nat.eqb a) s = true) as E'
    by (apply existsb_exists; exists a; split; [assumption|apply Nat.eqb_refl]).
  congruence.
Qed.

Lemma new_Set_NoDup (l : list nat) : NoDup (new_Set l).
Proof.
  unfold new_Set.
  assert (forall s, NoDup s -> NoDup (fold_left Set_add l s)) as G.
  { induction l as [|i l IH]; intros s Hs; simpl; [assumption|].
    apply IH, Set_add_NoDup, Hs. }
  apply G. constructor.
Qed.

Lemma key_eqb_eq (a b : Key) : key_eqb a b = true <-> a = b.
Proof.
  destruct a as [m|], b as [n|]; simpl; try (split; congruence).
  rewrite Nat.eqb_eq. split; congruence.
Qed.

Lemma key_eqb_refl (a : Key) : key_eqb a a = true.
Proof. apply key_eqb_eq. reflexivity. Qed.

Lemma key_eqb_neq (a b : Key) : key_eqb a b = false <-> a <> b.
Proof.
  rewrite <- key_eqb_eq. destruct (key_eqb a b); split; congruence.
Qed.

Lemma key_ltb_irrefl (a : Key) : key_ltb a a = false.
Proof. destruct a; simpl; [apply Nat.ltb_irrefl|reflexivity]. Qed.

Lemma key_ltb_trans (a b c : Key) :
  key_ltb a b = true -> key_ltb b c = true -> key_ltb a c = true.
Proof.
  destruct a, b, c; simpl; try congruence.
  rewrite !Nat.ltb_lt. lia.
Qed.

Lemma key_ltb_total (a b : Key) :
  key_eqb a b = false -> key_ltb a b = false -> key_ltb b a = true.
Proof.
  destruct a, b; simpl; try congruence.
  rewrite Nat.eqb_neq, Nat.ltb_ge, Nat.ltb_lt. lia.
Qed.

Section Objects.
Variable V : Type.
Implicit Types (o : list (Key * V)) (k : Key) (v : V).

Lemma obj_get_set o k v k' :
  obj_get (obj_set o k v) k' = if key_eqb k' k then Some v else obj_get o k'.
Proof.
  induction o as [|[k0 v0] o IH]; simpl.
  - destruct (key_eqb k' k); reflexivity.
  - destruct (key_eqb k k0) eqn:E0.
    + apply key_eqb_eq in E0. subst k0. simpl.
      destruct (key_eqb k' k); reflexivity.
    + destruct (key_ltb k k0); simpl.
      * destruct (key_eqb k' k); reflexivity.
      * rewrite IH. destruct (key_eqb k' k) eqn:E1; [|reflexivity].
        apply key_eqb_eq in E1. subst k'. rewrite E0. reflexivity.
Qed.

Lemma keys_obj_set o k v k' :
  In k' (keys (obj_set o k v)) <-> k' = k \/ In k' (keys o).
Proof.
  unfold keys. induction o as [|[k0 v0] o IH]; simpl.
  - intuition congruence.
  - destruct (key_eqb k k0) eqn:E0.
    + apply key_eqb_eq in E0. subst k0. simpl. intuition congruence.
    + destruct (key_ltb k k0); simpl.
      * intuition congruence.
      * rewrite IH. intuition congruence.
Qed.

Lemma obj_get_keys o k : obj_get o k <> None <-> In k (keys o).
Proof.
  unfold keys. induction o as [|[k0 v0] o IH]; simpl.
  - split; [congruence|tauto].
  - destruct (key_eqb k k0) eqn:E0.
    + apply key_eqb_eq in E0. split; [auto|congruence].
    + apply key_eqb_neq in E0. rewrite IH. split; [auto|].
      intros [E|E]; [congruence|assumption].
Qed.

Lemma obj_get_In o k v : obj_get o k = Some v -> In (k, v) o.
Proof.
  induction o as [|[k0 v0] o IH]; simpl; [congruence|].
  destruct (key_eqb k k0) eqn:E0.
  - apply key_eqb_eq in E0. intros [= ->]. left. congruence.
  - auto.
Qed.

Lemma ascending_nil : ascending (V:=V) [].
Proof. constructor. Qed.

Lemma ascending_obj_set o k v : ascending o -> ascending (obj_set o k v).
Proof.
  unfold ascending, keys.
  induction o as [|[k0 v0] o IH]; simpl; intros Ho.
  - repeat constructor.
  - inversion Ho as [|? ? Hs Hall]; subst.
    destruct (key_eqb k k0) eqn:E0.
    + apply key_eqb_eq in E0. subst k0. simpl. constructor; assumption.
    + destruct (key_ltb k k0) eqn:E1; simpl.
      * constructor; [assumption|]. constructor; [assumption|].
        rewrite Forall_forall in *. intros x Hx.
        eapply key_ltb_trans; [exact E1|]. apply Hall, Hx.
      * constructor; [apply IH, Hs|].
        rewrite Forall_forall in *. intros x Hx.
        apply (keys_obj_set o k v x) in Hx. destruct Hx as [->|Hx].
        -- apply key_ltb_total; [|assumption].
           rewrite key_eqb_neq in *. congruence.
        -- apply Hall, Hx.
Qed.

Lemma ascending_NoDup o : ascending o -> NoDup (keys o).
Proof.
  unfold ascending. induction 1 as [|a l Hs IH Hall]; constructor; [|assumption].
  intros Hin. rewrite Forall_forall in Hall. specialize (Hall _ Hin).
  rewrite key_ltb_irrefl in Hall. discriminate.
Qed.

End Objects.

(** ** Attributes *)

Section Attributes.
Context {F : Type} `{Number F}.
Implicit Types (a : list F) (k : Key).

Lemma store_length a j v : length (store a j v) = length a.
Proof.
  revert j. induction a as [|x a IH]; intros [|j]; simpl; auto.
Qed.

Lemma elem_store_other a j j' v : j <> j' -> elem (store a j v) j' = elem a j'.
Proof.
  unfold elem. revert j j'.
  induction a as [|x a IH]; intros [|j] [|j'] Hne; simpl; auto; try lia.
Qed.

Lemma elem_store_same a j v : j < length a -> elem (store a j v) j = fround v.
Proof.
  unfold elem. revert j.
  induction a as [|x a IH]; intros [|j] Hj; simpl in *; try lia; auto.
  apply IH. lia.
Qed.

Lemma store_out_of_range a j v : length a <= j -> store a j v = a.
Proof.
  revert j. induction a as [|x a IH]; intros [|j] Hj; simpl in *; auto; try lia.
  f_equal. apply IH. lia.
Qed.

Lemma setXYZ_length a k x y z : length (setXYZ a k x y z) = length a.
Proof. destruct k; simpl; [rewrite !store_length|]; reflexivity. Qed.

(** A write at one vertex leaves the elements of every other vertex alone. *)
Lemma elem_setXYZ_other a (i j c : nat) x y z :
  i <> j -> c < 3 -> elem (setXYZ a (Some i) x y z) (j * 3 + c) = elem a (j * 3 + c).
Proof.
  intros Hne Hc. simpl. rewrite !elem_store_other by lia. reflexivity.
Qed.

Lemma fromBufferAttribute_setXYZ_other a k k' x y z :
  k <> k' ->
  fromBufferAttribute (setXYZ a k' x y z) k = fromBufferAttribute a k.
Proof.
  intros Hne. destruct k as [j|]; [|reflexivity].
  destruct k' as [i|]; [|reflexivity].
  assert (i <> j) by congruence.
  unfold fromBufferAttribute.
  rewrite <- (Nat.add_0_r (j * 3)) at 1 4.
  rewrite !elem_setXYZ_other by lia. reflexivity.
Qed.

Lemma fromBufferAttribute_setXYZ_same a (i : nat) x y z :
  i * 3 + 2 < length a ->
  fromBufferAttribute (setXYZ a (Some i) x y z) (Some i) = stored (Vec3 x y z).
Proof.
  intros Hi. unfold fromBufferAttribute, stored, setXYZ. simpl vx. simpl vy. simpl vz.
  f_equal;
    repeat (rewrite elem_store_other by lia);
    apply elem_store_same; rewrite ?store_length; lia.
Qed.

Lemma nth_error_store a j v n :
  nth_error (store a j v) n =
  if Nat.eqb n j then option_map (fun _ => fround v) (nth_error a n)
  else nth_error a n.
Proof.
  revert j n. induction a as [|x a IH]; intros [|j] [|n]; simpl; auto;
    destruct (Nat.eqb n j); reflexivity.
Qed.

(** Writes at two different vertices commute. *)
Lemma setXYZ_comm a (i j : nat) x y z x' y' z' :
  i <> j ->
  setXYZ (setXYZ a (Some i) x y z) (Some j) x' y' z' =
  setXYZ (setXYZ a (Some j) x' y' z') (Some i) x y z.
Proof.
  intros Hne. apply nth_error_ext. intros n. simpl.
  rewrite !nth_error_store.
  repeat match goal with
         | |- context [Nat.eqb ?u ?w] => destruct (Nat.eqb_spec u w)
         end; try lia; reflexivity.
Qed.

End Attributes.

(** ** The displacement loop *)

Section Displacement.
Context {F : Type} `{Number F}.
Variable indexAttr : list nat.
Variables tempVec2 tempVec3 : Vector3 F.
Variable p : Params F.
Variable pos0 : list F.

Lemma displace_skip posAttr o i :
  beyondBrush tempVec2 p posAttr (getX indexAttr i) = true ->
  displace indexAttr tempVec2 tempVec3 p (posAttr, o) i = (posAttr, o).
Proof. unfold beyondBrush, displace. intros ->. reflexivity. Qed.

Lemma displace_push posAttr o i :
  beyondBrush tempVec2 p posAttr (getX indexAttr i) = false ->
  displace indexAttr tempVec2 tempVec3 p (posAttr, o) i =
  (let k := getX indexAttr i in
   let v := pushed tempVec2 tempVec3 p posAttr k in
   (setXYZ posAttr k (vx v) (vy v) (vz v),
    obj_set o k
      (match obj_get o k with Some arr => arr | None => [] end
       ++ [ToInt32 (Z.of_nat (i / 3))]))).
Proof. unfold beyondBrush, displace, pushed. intros ->. reflexivity. Qed.

Lemma beyondBrush_ext posA posB k :
  fromBufferAttribute posA k = fromBufferAttribute posB k ->
  beyondBrush tempVec2 p posA k = beyondBrush tempVec2 p posB k.
Proof. unfold beyondBrush. intros ->. reflexivity. Qed.

Lemma loopInvariant_step visited st i :
  loopInvariant indexAttr tempVec2 p pos0 visited st ->
  loopInvariant indexAttr tempVec2 p pos0 (visited ++ [i]) (displace indexAttr tempVec2 tempVec3 p st i).
Proof.
  destruct st as [posAttr o]. intros (Hkeys & Hpos & Hasc). cbn [fst snd] in *.
  set (ki := getX indexAttr i).
  assert (Hseen: forall k, In k (map (getX indexAttr) (visited ++ [i])) <->
                           In k (map (getX indexAttr) visited) \/ k = ki).
  { intros k. rewrite map_app, in_app_iff. simpl. fold ki. intuition congruence. }
  destruct (beyondBrush tempVec2 p posAttr ki) eqn:Etest.
  - rewrite displace_skip by exact Etest. split; [|split]; cbn [fst snd].
    + intros k. rewrite Hseen, Hkeys. split; [tauto|].
      intros [[Hin| ->] Hpass]; [tauto|].
      destruct (in_dec key_dec ki (map (getX indexAttr) visited)) as [Hin|Hout];
        [tauto|].
      rewrite (beyondBrush_ext posAttr pos0 ki) in Etest by (apply Hpos; auto).
      congruence.
    + intros k Hk. apply Hpos. rewrite Hseen in Hk. tauto.
    + exact Hasc.
  - assert (Hpass: beyondBrush tempVec2 p pos0 ki = false).
    { destruct (beyondBrush tempVec2 p pos0 ki) eqn:E0; [|reflexivity].
      rewrite (beyondBrush_ext posAttr pos0 ki) in Etest by (apply Hpos; auto).
      congruence. }
    rewrite displace_push by exact Etest. fold ki. split; [|split]; cbn [fst snd].
    + intros k. rewrite keys_obj_set, Hseen, Hkeys. split.
      * intros [->|[Hin Hk]]; auto.
      * intros [[Hin| ->] Hk]; auto.
    + intros k Hk.
      assert (k <> ki) as Hne.
      { intros ->. rewrite Hseen in Hk. destruct Hk as [Hk|Hk]; [congruence|tauto]. }
      rewrite fromBufferAttribute_setXYZ_other by exact Hne.
      apply Hpos. rewrite Hseen in Hk. tauto.
    + apply ascending_obj_set, Hasc.
Qed.

Lemma loopInvariant_fold todo : forall visited st,
  loopInvariant indexAttr tempVec2 p pos0 visited st ->
  loopInvariant indexAttr tempVec2 p pos0 (visited ++ todo)
    (fold_left (displace indexAttr tempVec2 tempVec3 p) todo st).
Proof.
  induction todo as [|i todo IH]; intros visited st Hst; simpl.
  - rewrite app_nil_r. exact Hst.
  - replace (visited ++ i :: todo) with ((visited ++ [i]) ++ todo)
      by (rewrite <- app_assoc; reflexivity).
    apply IH, loopInvariant_step, Hst.
Qed.

End Displacement.

Lemma displacementPass_invariant {F : Type} `{Number F}
    (indexAttr : list nat) (tempVec2 tempVec3 : Vector3 F) (p : Params F)
    (indexSet : list nat) (pos0 : list F) :
  loopInvariant indexAttr tempVec2 p pos0 indexSet
    (displacementPass indexAttr tempVec2 tempVec3 p indexSet pos0).
Proof.
  unfold displacementPass.
  apply (loopInvariant_fold tempVec3 indexSet (visited:=[])).
  split; [|split]; simpl.
  - intros k. tauto.
  - reflexivity.
  - apply ascending_nil.
Qed.

(** *** The positions alone *)

Section Positions.
Context {F : Type} `{Number F}.
Variable indexAttr : list nat.
Variables tempVec2 tempVec3 : Vector3 F.
Variable p : Params F.

Local Abbreviation move := (moveVertex tempVec2 tempVec3 p).
Local Abbreviation step := (fun posAttr i => move (getX indexAttr i) posAttr).

Lemma displace_moveVertex st i :
  fst (displace indexAttr tempVec2 tempVec3 p st i) =
  move (getX indexAttr i) (fst st).
Proof.
  destruct st as [posAttr o]. unfold moveVertex. cbn [fst].
  destruct (beyondBrush tempVec2 p posAttr (getX indexAttr i)) eqn:E.
  - rewrite displace_skip by exact E. reflexivity.
  - rewrite displace_push by exact E. reflexivity.
Qed.

Lemma displacementPass_moveVertex indexSet : forall st,
  fst (fold_left (displace indexAttr tempVec2 tempVec3 p) indexSet st) =
  fold_left step indexSet (fst st).
Proof.
  induction indexSet as [|i rest IH]; intros st; simpl; [reflexivity|].
  rewrite IH, displace_moveVertex. reflexivity.
Qed.

Lemma moveVertex_length k posAttr : length (move k posAttr) = length posAttr.
Proof.
  unfold moveVertex. destruct (beyondBrush _ _ _ _); [reflexivity|].
  apply setXYZ_length.
Qed.

(** Moving one vertex leaves what another vertex reads. *)
Lemma moveVertex_other k k' posAttr :
  k <> k' ->
  fromBufferAttribute (move k' posAttr) k = fromBufferAttribute posAttr k.
Proof.
  intros Hne. unfold moveVertex. destruct (beyondBrush _ _ _ _); [reflexivity|].
  apply fromBufferAttribute_setXYZ_other, Hne.
Qed.

Lemma pushed_ext posA posB k :
  fromBufferAttribute posA k = fromBufferAttribute posB k ->
  pushed tempVec2 tempVec3 p posA k = pushed tempVec2 tempVec3 p posB k.
Proof. unfold pushed. intros ->. reflexivity. Qed.

(** Two calls of the loop body commute on the positions. *)
Lemma moveVertex_comm k k' posAttr :
  move k (move k' posAttr) = move k' (move k posAttr).
Proof.
  destruct (key_dec k k') as [->|Hne]; [reflexivity|].
  assert (Hne': k' <> k) by congruence.
  unfold moveVertex at 1 3.
  rewrite (beyondBrush_ext tempVec2 p _ _ _ (moveVertex_other posAttr Hne)).
  rewrite (beyondBrush_ext tempVec2 p _ _ _ (moveVertex_other posAttr Hne')).
  rewrite (pushed_ext _ _ _ (moveVertex_other posAttr Hne)).
  rewrite (pushed_ext _ _ _ (moveVertex_other posAttr Hne')).
  unfold moveVertex.
  destruct (beyondBrush tempVec2 p posAttr k), (beyondBrush tempVec2 p posAttr k');
    try reflexivity.
  destruct k as [i|], k' as [j|]; try reflexivity.
  apply setXYZ_comm. congruence.
Qed.

Lemma fold_step_permutation l l' :
  Permutation l l' ->
  forall posAttr, fold_left step l posAttr = fold_left step l' posAttr.
Proof.
  induction 1 as [|i l l' _ IH|i j l|l l' l'' _ IH1 _ IH2]; intros posAttr; simpl.
  - reflexivity.
  - apply IH.
  - rewrite moveVertex_comm. reflexivity.
  - rewrite IH1. apply IH2.
Qed.

(** Indices that lead elsewhere leave what a vertex reads. *)
Lemma fold_step_other k l : forall posAttr,
  (forall i, In i l -> getX indexAttr i <> k) ->
  fromBufferAttribute (fold_left step l posAttr) k = fromBufferAttribute posAttr k.
Proof.
  induction l as [|i l IH]; intros posAttr Hl; simpl; [reflexivity|].
  rewrite IH by (intros j Hj; apply Hl; right; exact Hj).
  apply moveVertex_other. intros Hk. apply (Hl i); [left; reflexivity|congruence].
Qed.

Lemma fold_step_length l : forall posAttr,
  length (fold_left step l posAttr) = length posAttr.
Proof.
  induction l as [|i l IH]; intros posAttr; simpl; [reflexivity|].
  rewrite IH. apply moveVertex_length.
Qed.

(** A vertex within the radius that fits the array reads back the pushed
    position after its move. *)
Lemma moveVertex_same (v : nat) posAttr :
  beyondBrush tempVec2 p posAttr (Some v) = false ->
  v * 3 + 2 < length posAttr ->
  fromBufferAttribute (move (Some v) posAttr) (Some v) =
  stored (pushed tempVec2 tempVec3 p posAttr (Some v)).
Proof.
  intros Hin Hfit. unfold moveVertex. rewrite Hin.
  destruct (pushed tempVec2 tempVec3 p posAttr (Some v)) as [x y z].
  apply fromBufferAttribute_setXYZ_same, Hfit.
Qed.

(** A vertex that exactly one index of the list leads to. *)
Lemma fold_step_once (v : nat) l1 i l2 posAttr :
  getX indexAttr i = Some v ->
  (forall j, In j l1 -> getX indexAttr j <> Some v) ->
  (forall j, In j l2 -> getX indexAttr j <> Some v) ->
  beyondBrush tempVec2 p posAttr (Some v) = false ->
  v * 3 + 2 < length posAttr ->
  fromBufferAttribute (fold_left step (l1 ++ i :: l2) posAttr) (Some v) =
  stored (pushed tempVec2 tempVec3 p posAttr (Some v)).
Proof.
  intros Hi H1 H2 Hin Hfit.
  rewrite fold_left_app.
  pose proof (fold_step_other l1 posAttr H1) as Hread.
  pose proof (fold_step_length l1 posAttr) as Hlen.
  set (pos1 := fold_left step l1 posAttr) in *.
  change (fold_left step (i :: l2) pos1)
    with (fold_left step l2 (move (getX indexAttr i) pos1)).
  rewrite fold_step_other by exact H2.
  rewrite Hi, moveVertex_same.
  - rewrite (pushed_ext _ _ _ Hread). reflexivity.
  - rewrite (beyondBrush_ext tempVec2 p _ _ _ Hread). exact Hin.
  - rewrite Hlen. exact Hfit.
Qed.

Lemma visited_once_split l k :
  count_occ key_dec (map (getX indexAttr) l) k = 1 ->
  exists l1 i l2,
    l = l1 ++ i :: l2 /\ getX indexAttr i = k /\
    (forall j, In j l1 -> getX indexAttr j <> k) /\
    (forall j, In j l2 -> getX indexAttr j <> k).
Proof.
  induction l as [|a l IH]; simpl; [discriminate|].
  destruct (key_dec (getX indexAttr a) k) as [Ha|Ha].
  - intros [= Hrest]. exists [], a, l.
    split; [reflexivity|]. split; [exact Ha|]. split.
    + intros j [].
    + intros j Hj Hk. apply (count_occ_not_In key_dec) in Hrest.
      apply Hrest, in_map_iff. exists j. auto.
  - intros Hrest. destruct (IH Hrest) as (l1 & i & l2 & -> & Hi & H1 & H2).
    exists (a :: l1), i, l2.
    split; [reflexivity|]. split; [exact Hi|]. split; [|exact H2].
    intros j [<-|Hj]; auto.
Qed.

End Positions.

(** ** The normal refresh *)

Section Refresh.
Context {F : Type} `{Number F}.
Variable indexAttr : list nat.
Variable posAttr : list F.

Lemma refreshNormals_cons k arr o normalAttr :
  refreshNormals indexAttr posAttr ((k, arr) :: o) normalAttr =
  refreshNormals indexAttr posAttr o
    (let tempVec := vertexNormal indexAttr posAttr arr in
     setXYZ normalAttr k (vx tempVec) (vy tempVec) (vz tempVec)).
Proof. reflexivity. Qed.

Lemma refreshNormals_length o : forall normalAttr,
  length (refreshNormals indexAttr posAttr o normalAttr) = length normalAttr.
Proof.
  induction o as [|[k arr] o IH]; intros normalAttr; [reflexivity|].
  rewrite refreshNormals_cons, IH. apply setXYZ_length.
Qed.

(** Only the vertices that are keys of the object are written. *)
Lemma refreshNormals_other o k : forall normalAttr,
  ~ In k (keys o) ->
  fromBufferAttribute (refreshNormals indexAttr posAttr o normalAttr) k =
  fromBufferAttribute normalAttr k.
Proof.
  induction o as [|[k0 arr] o IH]; intros normalAttr Hk; [reflexivity|].
  simpl in Hk. rewrite refreshNormals_cons, IH by tauto.
  apply fromBufferAttribute_setXYZ_other. intros ->. tauto.
Qed.

(** A vertex that is a key reads back the vector computed from its entry. *)
Lemma refreshNormals_at o (v : nat) arr : forall normalAttr,
  NoDup (keys o) ->
  In (Some v, arr) o ->
  v * 3 + 2 < length normalAttr ->
  fromBufferAttribute (refreshNormals indexAttr posAttr o normalAttr) (Some v) =
  stored (vertexNormal indexAttr posAttr arr).
Proof.
  induction o as [|[k0 arr0] o IH]; intros normalAttr Hnd Hin Hlen; [destruct Hin|].
  simpl in Hnd. inversion Hnd as [|? ? Hfresh Hnd']; subst.
  rewrite refreshNormals_cons. destruct Hin as [[= -> ->]|Hin].
  - rewrite refreshNormals_other by exact Hfresh.
    apply fromBufferAttribute_setXYZ_same, Hlen.
  - apply IH; [exact Hnd'|exact Hin|]. rewrite setXYZ_length. exact Hlen.
Qed.

End Refresh.

(** ** One stroke *)

Section Stroke.
Context {F : Type} `{Number F} {C : Collaborators F}.
Variable p : Params F.
Variable m : Mesh F.
Variable hit : Hit F.

Lemma stroke_position :
  position (stroke p m hit) = fst (strokeDisplacement p m hit).
Proof. unfold stroke. destruct (strokeIndices p m hit); reflexivity. Qed.

Lemma stroke_index : index (stroke p m hit) = index (geometry m).
Proof. unfold stroke. destruct (strokeIndices p m hit); reflexivity. Qed.

Lemma stroke_normal_idle :
  strokeIndices p m hit = [] ->
  normal (stroke p m hit) = normal (geometry m) /\
  normal_needsUpdate (stroke p m hit) = normal_needsUpdate (geometry m) /\
  position_needsUpdate (stroke p m hit) = position_needsUpdate (geometry m).
Proof. unfold stroke. intros ->. auto. Qed.

Lemma stroke_normal_refreshed :
  strokeIndices p m hit <> [] ->
  normal (stroke p m hit) =
    refreshNormals (index (geometry m)) (position (stroke p m hit))
      (snd (strokeDisplacement p m hit)) (normal (geometry m)) /\
  normal_needsUpdate (stroke p m hit) = true /\
  position_needsUpdate (stroke p m hit) = true.
Proof.
  rewrite stroke_position. unfold stroke.
  destruct (strokeIndices p m hit); [congruence|]. auto.
Qed.

Lemma strokeDisplacement_invariant :
  loopInvariant (index (geometry m)) (brushCenter m hit) p (position (geometry m))
    (new_Set (strokeIndices p m hit)) (strokeDisplacement p m hit).
Proof. apply displacementPass_invariant. Qed.

(** The keys of [indexToTriangles] after the loop. *)
Lemma strokeDisplacement_keys k :
  In k (keys (snd (strokeDisplacement p m hit))) <->
  (exists i, In i (strokeIndices p m hit) /\ getX (index (geometry m)) i = k) /\
  beyondBrush (brushCenter m hit) p (position (geometry m)) k = false.
Proof.
  destruct strokeDisplacement_invariant as (Hkeys & _ & _).
  rewrite Hkeys, in_map_iff. split.
  - intros [(i & Hi & Hin) Hk]. split; [|exact Hk].
    exists i. rewrite new_Set_In in Hin. auto.
  - intros [(i & Hin & Hi) Hk]. split; [|exact Hk].
    exists i. rewrite new_Set_In. auto.
Qed.

(** A vertex that fails the distance test on its position before the stroke,
    or that no recorded index leads to, keeps that position. *)
Lemma stroke_position_kept k :
  beyondBrush (brushCenter m hit) p (position (geometry m)) k = true \/
  ~ (exists i, In i (strokeIndices p m hit) /\ getX (index (geometry m)) i = k) ->
  fromBufferAttribute (position (stroke p m hit)) k =
  fromBufferAttribute (position (geometry m)) k.
Proof.
  destruct strokeDisplacement_invariant as (_ & Hpos & _).
  intros Hk. rewrite stroke_position. apply Hpos.
  destruct Hk as [Hk|Hk]; [auto|]. right. intros Hin. apply Hk.
  apply in_map_iff in Hin. destruct Hin as (i & Hi & Hin).
  exists i. rewrite new_Set_In in Hin. auto.
Qed.

(** The reference direction is computed once, before the loop, and every call
    of the loop body receives that same vector. *)
Lemma reference_direction_computed_once :
  strokeDisplacement p m hit =
  fold_left
    (displace (index (geometry m)) (brushCenter m hit) (referenceDirection m hit) p)
    (new_Set (strokeIndices p m hit)) (position (geometry m), []).
Proof. reflexivity. Qed.

(** A vertex with a key reads back the vector computed from its entry. *)
Lemma stroke_normal_at v arr :
  strokeIndices p m hit <> [] ->
  obj_get (snd (strokeDisplacement p m hit)) (Some v) = Some arr ->
  v * 3 + 2 < length (normal (geometry m)) ->
  fromBufferAttribute (normal (stroke p m hit)) (Some v) =
  stored (vertexNormal (index (geometry m)) (position (stroke p m hit)) arr).
Proof.
  intros Hrun Hget Hlen.
  destruct (stroke_normal_refreshed Hrun) as (-> & _).
  apply refreshNormals_at; [|apply obj_get_In, Hget|exact Hlen].
  apply ascending_NoDup. apply strokeDisplacement_invariant.
Qed.

(** A vertex without a key keeps its normal. *)
Lemma stroke_normal_kept k :
  ~ In k (keys (snd (strokeDisplacement p m hit))) ->
  fromBufferAttribute (normal (stroke p m hit)) k =
  fromBufferAttribute (normal (geometry m)) k.
Proof.
  intros Hk.
  destruct (list_eq_dec Nat.eq_dec (strokeIndices p m hit) []) as [Hnil|Hrun].
  - destruct (stroke_normal_idle Hnil) as (-> & _). reflexivity.
  - destruct (stroke_normal_refreshed Hrun) as (-> & _).
    apply refreshNormals_other, Hk.
Qed.

End Stroke.

(** X1, the distance cutoff.  A vertex that fails the distance test of line 326
    on its position before the stroke has, after the stroke, the position it
    had. *)
Theorem vertex_beyond_radius_keeps_position
    {F : Type} `{Number F} {C : Collaborators F}
    (p : Params F) (m : Mesh F) (hit : Hit F) (k : Key) :
  beyondBrush (brushCenter m hit) p (position (geometry m)) k = true ->
  fromBufferAttribute (position (stroke p m hit)) k =
  fromBufferAttribute (position (geometry m)) k.
Proof. intros Hk. apply stroke_position_kept. left. exact Hk. Qed.

(** X2, an empty region query.  When [shapecast] records no index the stroke
    leaves the geometry as it was: positions, normals and flags. *)
Theorem empty_query_changes_nothing
    {F : Type} `{Number F} {C : Collaborators F}
    (p : Params F) (m : Mesh F) (hit : Hit F) :
  strokeIndices p m hit = [] -> stroke p m hit = geometry m.
Proof.
  intros Hnil. unfold stroke, strokeDisplacement. rewrite Hnil. simpl.
  destruct (geometry m). reflexivity.
Qed.

(** X3, the order of the displacement loop.  The position attribute the loop
    leaves does not depend on the order in which the elements of the set are
    visited. *)
Theorem displacement_order_irrelevant
    {F : Type} `{Number F}
    (indexAttr : list nat) (tempVec2 tempVec3 : Vector3 F) (p : Params F)
    (indexSet indexSet' : list nat) (posAttr : list F) :
  Permutation indexSet indexSet' ->
  fst (displacementPass indexAttr tempVec2 tempVec3 p indexSet posAttr) =
  fst (displacementPass indexAttr tempVec2 tempVec3 p indexSet' posAttr).
Proof.
  intros Hperm. unfold displacementPass.
  rewrite !displacementPass_moveVertex. apply fold_step_permutation, Hperm.
Qed.

(** X4, the falloff.  A vertex that exactly one element of the set leads to,
    that passes the distance test and fits the array, ends the stroke at the
    stated position: its old position plus the reference direction scaled by
    [(1 - dist / radius) * intensity], as the array keeps it. *)
Theorem vertex_displaced_once_gets_stated_position
    {F : Type} `{Number F} {C : Collaborators F}
    (p : Params F) (m : Mesh F) (hit : Hit F) (v : nat) :
  count_occ key_dec
    (map (getX (index (geometry m))) (new_Set (strokeIndices p m hit)))
    (Some v) = 1 ->
  beyondBrush (brushCenter m hit) p (position (geometry m)) (Some v) = false ->
  v * 3 + 2 < length (position (geometry m)) ->
  fromBufferAttribute (position (stroke p m hit)) (Some v) =
  statedPosition (brushCenter m hit) (referenceDirection m hit) p
    (position (geometry m)) (Some v).
Proof.
  intros Honce Hin Hfit.
  destruct (visited_once_split _ _ _ Honce) as (l1 & i & l2 & Hl & Hi & H1 & H2).
  rewrite stroke_position. unfold strokeDisplacement, displacementPass.
  rewrite displacementPass_moveVertex, Hl. cbn [fst].
  apply fold_step_once; assumption.
Qed.

(** C5 (as amended).  The block of lines 347-377 runs exactly when the region
    query recorded an index, whether or not a vertex moved; otherwise the
    normals and the two [needsUpdate] flags stay as they were.  When it runs
    it sets both flags and rewrites the normal of every vertex that is a key
    of [indexToTriangles]; every vertex a recorded index leads to that passes
    the distance test of line 326 on its position before the stroke is such
    a key. *)
Theorem normal_refresh_runs_when_indices_recorded
    {F : Type} `{Number F} {C : Collaborators F}
    (p : Params F) (m : Mesh F) (hit : Hit F) :
  let g := geometry m in
  let g' := stroke p m hit in
  let indices := strokeIndices p m hit in
  let indexToTriangles := snd (strokeDisplacement p m hit) in
  (indices = [] ->
     normal g' = normal g /\
     normal_needsUpdate g' = normal_needsUpdate g /\
     position_needsUpdate g' = position_needsUpdate g) /\
  (indices <> [] ->
     normal g' = refreshNormals (index g) (position g') indexToTriangles (normal g) /\
     normal_needsUpdate g' = true /\
     position_needsUpdate g' = true) /\
  (forall v arr,
     indices <> [] ->
     obj_get indexToTriangles (Some v) = Some arr ->
     v * 3 + 2 < length (normal g) ->
     fromBufferAttribute (normal g') (Some v) =
     stored (vertexNormal (index g) (position g') arr)) /\
  (forall i,
     In i indices ->
     beyondBrush (brushCenter m hit) p (position g) (getX (index g) i) = false ->
     In (getX (index g) i) (keys indexToTriangles)).
Proof.
  intros g g' indices indexToTriangles.
  split; [|split; [|split]].
  - apply stroke_normal_idle.
  - apply stroke_normal_refreshed.
  - apply stroke_normal_at.
  - intros i Hi Hin. apply strokeDisplacement_keys. split; [|exact Hin].
    exists i. auto.
Qed.

(** ** Frames *)

Section Frames.
Context {F : Type} `{Number F} {C : Collaborators F}.
Implicit Types (s : State) (e : Event) (trace : list Event).

Lemma render_idle s : idle s -> targetMesh (render s) = targetMesh s.
Proof.
  unfold idle, render. intros [Hactive|Hmiss].
  - rewrite Hactive. reflexivity.
  - rewrite Hmiss. destruct (controls_active s); reflexivity.
Qed.

Lemma render_not_pressed s :
  mouseState s = false -> lastMouseState s = false ->
  targetMesh (render s) = targetMesh s.
Proof.
  unfold render. intros -> ->.
  destruct (controls_active s); [reflexivity|].
  destruct (intersectObject (camera s) (mouse s) (targetMesh s)); reflexivity.
Qed.

Lemma handler_keeps_mesh e s : e <> frame -> targetMesh (handle e s) = targetMesh s.
Proof. destruct e; simpl; intros He; try reflexivity. congruence. Qed.

Lemma render_controls_active s : controls_active (render s) = controls_active s.
Proof.
  unfold render. destruct (controls_active s) eqn:E; simpl; [reflexivity|].
  destruct (intersectObject (camera s) (mouse s) (targetMesh s)); simpl;
    rewrite ?E; reflexivity.
Qed.

Lemma framesIdle_mesh trace : forall s,
  framesIdle trace s -> targetMesh (run trace s) = targetMesh s.
Proof.
  unfold run. induction trace as [|e rest IH]; intros s Hidle; simpl; [reflexivity|].
  destruct Hidle as [He Hrest]. rewrite (IH _ Hrest).
  destruct e; try (apply handler_keeps_mesh; discriminate).
  apply render_idle, He. reflexivity.
Qed.

(** Once a gesture has begun, every frame is idle until it ends. *)
Lemma gesture_framesIdle trace : forall s,
  controls_active s = true ->
  ~ In controls_end trace ->
  framesIdle trace s.
Proof.
  induction trace as [|e rest IH]; intros s Hactive Hend; simpl; [exact I|].
  simpl in Hend. split; [intros _; left; exact Hactive|].
  apply IH; [|tauto].
  destruct e; try (simpl; first [exact Hactive | reflexivity]).
  - tauto.
  - cbn [handle]. rewrite render_controls_active. exact Hactive.
Qed.

(** No frame changes the parameters or the world matrix of the mesh. *)
Lemma render_params s : params (render s) = params s.
Proof.
  unfold render. destruct (controls_active s); [reflexivity|].
  destruct (intersectObject (camera s) (mouse s) (targetMesh s)); reflexivity.
Qed.

Lemma render_matrixWorld s :
  matrixWorld (targetMesh (render s)) = matrixWorld (targetMesh s).
Proof.
  unfold render. destruct (controls_active s); [reflexivity|].
  destruct (intersectObject (camera s) (mouse s) (targetMesh s)); [|reflexivity].
  cbn [targetMesh]. destruct (mouseState s || lastMouseState s); reflexivity.
Qed.

Lemma run_matrixWorld trace : forall s,
  matrixWorld (targetMesh (run trace s)) = matrixWorld (targetMesh s).
Proof.
  unfold run. induction trace as [|e rest IH]; intros s; simpl; [reflexivity|].
  rewrite IH. destruct e; try reflexivity. apply render_matrixWorld.
Qed.

(** The [wheel] listener stores the clamp of the size it computed. *)
Lemma onWheel_clamps (deltaY : F) (deltaMode : N) (p : Params F) :
  onWheel deltaY deltaMode p =
  mkParams (fmax (fmin (wheelRaw deltaY deltaMode p) (lit 25 100)) (lit 5 100))
           (intensity p).
Proof. reflexivity. Qed.

End Frames.

(** C8.  Over any trace of handler calls and animation frames in which every
    frame finds the stroke driver idle (an orbit gesture is active, or the
    picking ray misses), the position array and the normal array at the end
    are those at the start, whatever the pointer does.  A gesture that begins
    during a stroke makes every later frame idle until [controls_end]
    ([gesture_framesIdle]). *)
Theorem idle_frames_leave_geometry
    {F : Type} `{Number F} {C : Collaborators F}
    (trace : list Event) (s : State) :
  framesIdle trace s ->
  position (geometry (targetMesh (run trace s))) = position (geometry (targetMesh s)) /\
  normal (geometry (targetMesh (run trace s))) = normal (geometry (targetMesh s)).
Proof.
  intros Hidle. rewrite (framesIdle_mesh trace s Hidle). split; reflexivity.
Qed.

(** The region test answers one of the three classifications, and which one
    is decided by the two tests of three.js as the numbers compute them. *)
Lemma intersectsBounds_cases
    {F : Type} `{Number F} (sphere : Sphere F) (box : Box3 F) :
  (intersectsBounds sphere box = CONTAINED <->
     intersectsBox sphere box = true /\
     forall q, In q (corners box) -> containsPoint sphere q = true) /\
  (intersectsBounds sphere box = NOT_INTERSECTED <->
     intersectsBox sphere box = false) /\
  (intersectsBounds sphere box = INTERSECTED <->
     intersectsBox sphere box = true /\
     exists q, In q (corners box) /\ containsPoint sphere q = false).
Proof.
  unfold intersectsBounds.
  destruct (intersectsBox sphere box).
  - destruct (forallb (containsPoint sphere) (corners box)) eqn:Ec.
    + rewrite forallb_forall in Ec.
      repeat split; try discriminate; auto.
      intros (_ & q & Hq & Hout). rewrite (Ec q Hq) in Hout. discriminate.
    + assert (exists q, In q (corners box) /\ containsPoint sphere q = false) as Hex.
      { apply not_true_iff_false in Ec. rewrite forallb_forall in Ec.
        destruct (existsb (fun q => negb (containsPoint sphere q)) (corners box)) eqn:Ee.
        - apply existsb_exists in Ee. destruct Ee as (q & Hq & Hn).
          exists q. split; [exact Hq|]. apply negb_true_iff, Hn.
        - exfalso. apply Ec. intros q Hq.
          destruct (containsPoint sphere q) eqn:Eq; [reflexivity|].
          assert (existsb (fun q => negb (containsPoint sphere q)) (corners box) = true)
            as Ht by (apply existsb_exists; exists q; rewrite Eq; auto).
          congruence. }
      repeat split; try discriminate; auto.
      intros (_ & Hall). destruct Hex as (q & Hq & Hout).
      rewrite (Hall q Hq) in Hout. discriminate.
  - repeat split; try discriminate; auto; intros (Hf & _); discriminate.
Qed.

(** * Properties of the query, the loop, the frames and the handlers *)

(** ** The set of recorded numbers *)

Lemma Set_add_fresh (s : list nat) (i : nat) : ~ In i s -> Set_add s i = s ++ [i].
Proof.
  intros Hi. unfold Set_add. destruct (existsb (Nat.eqb i) s) eqn:E; [|reflexivity].
  apply existsb_exists in E. destruct E as (x & Hx & E).
  apply Nat.eqb_eq in E. subst x. contradiction.
Qed.

Lemma fold_Set_add_NoDup (l : list nat) : forall s,
  NoDup (s ++ l) -> fold_left Set_add l s = s ++ l.
Proof.
  induction l as [|i l IH]; intros s Hnd; simpl.
  - rewrite app_nil_r. reflexivity.
  - rewrite Set_add_fresh.
    + rewrite IH; rewrite <- app_assoc; [reflexivity|exact Hnd].
    + apply NoDup_remove_2 in Hnd. intros Hi. apply Hnd, in_or_app. left. exact Hi.
Qed.

(** A list without repetition is its own set. *)
Lemma new_Set_NoDup_id (l : list nat) : NoDup l -> new_Set l = l.
Proof. intros Hl. unfold new_Set. apply (fold_Set_add_NoDup l []). exact Hl. Qed.

Lemma NoDup_app_parts (A : Type) (l l' : list A) :
  NoDup (l ++ l') -> NoDup l /\ NoDup l' /\ (forall a, In a l -> ~ In a l').
Proof.
  induction l as [|x l IH]; simpl; intros Hnd.
  - split; [constructor|]. split; [exact Hnd|]. intros a [].
  - inversion Hnd as [|? ? Hx Hrest]; subst.
    destruct (IH Hrest) as (Hl & Hl' & Hdis).
    split; [|split; [exact Hl'|]].
    + constructor; [|exact Hl]. intros Hin. apply Hx, in_or_app. left. exact Hin.
    + intros a [<-|Ha]; [|apply Hdis, Ha].
      intros Hin. apply Hx, in_or_app. right. exact Hin.
Qed.

Lemma NoDup_filter_list (A : Type) (f : A -> bool) (l : list A) :
  NoDup l -> NoDup (filter f l).
Proof.
  induction 1 as [|x l Hx Hl IH]; simpl; [constructor|].
  destruct (f x); [|exact IH].
  constructor; [|exact IH]. intros Hin. apply filter_In in Hin. tauto.
Qed.

Lemma filter_all (A : Type) (l : list A) : filter (fun _ => true) l = l.
Proof. induction l as [|x l IH]; simpl; [|rewrite IH]; reflexivity. Qed.

(** The three offsets of one triangle, and of different triangles, differ. *)
Lemma cornerOffsets_NoDup (indexAttr ts : list nat) :
  NoDup ts ->
  NoDup (flat_map (fun t => let '(a, b, c) := cornerOffsets indexAttr t in [a; b; c]) ts).
Proof.
  induction 1 as [|t ts Ht Hts IH]; simpl; [constructor|].
  assert (Hin: forall i,
            In i (flat_map (fun t => let '(a, b, c) := cornerOffsets indexAttr t in [a; b; c]) ts) ->
            In (i / 3) ts).
  { intros i Hi. apply in_flat_map in Hi. destruct Hi as (t' & Ht' & Hi).
    simpl in Hi.
    assert (i / 3 = t') as ->; [|exact Ht'].
    destruct Hi as [<-|[<-|[<-|[]]]].
    - apply Nat.div_mul. lia.
    - symmetry. apply (Nat.div_unique _ 3 t' 1); lia.
    - symmetry. apply (Nat.div_unique _ 3 t' 2); lia. }
  assert (Hdiv: forall c, c < 3 -> (t * 3 + c) / 3 = t).
  { intros c Hc. symmetry. apply (Nat.div_unique _ 3 t c); lia. }
  constructor; [|constructor; [|constructor; [|exact IH]]].
  - simpl. intros [E|[E|Hi]]; try lia.
    apply Hin in Hi. rewrite Nat.div_mul in Hi by lia. contradiction.
  - simpl. intros [E|Hi]; try lia.
    apply Hin in Hi. rewrite (Hdiv 1) in Hi by lia. contradiction.
  - intros Hi. apply Hin in Hi. rewrite (Hdiv 2) in Hi by lia. contradiction.
Qed.

(** ** The region query *)

Section RegionQuery.
Context {F : Type} `{Number F} {C : Collaborators F}.
Variable sphere : Sphere F.
Variable indexAttr : list nat.
Variable posAttr : list F.

Local Abbreviation accepts contained :=
  (fun t => contained || intersectsSphere (setTriangle indexAttr posAttr t) sphere).

(** The primitive test never ends the traversal; it appends the numbers of
    the triangles it accepts. *)
Lemma iterateOverTriangles_appends ts contained : forall indices,
  iterateOverTriangles triangleArgs indexAttr posAttr (intersectsTriangle sphere)
    ts contained indices =
  (false, indices ++ flat_map (tripleOf indexAttr) (filter (accepts contained) ts)).
Proof.
  induction ts as [|t ts IH]; intros indices; simpl.
  - rewrite app_nil_r. reflexivity.
  - unfold tripleOf at 1. destruct (triangleArgs indexAttr t) as [[a b] c] eqn:E.
    unfold intersectsTriangle at 1. rewrite IH.
    destruct (contained || intersectsSphere (setTriangle indexAttr posAttr t) sphere);
      simpl.
    + rewrite E, <- app_assoc. reflexivity.
    + reflexivity.
Qed.

Lemma shapecast_appends n : forall indices,
  shapecast triangleArgs indexAttr posAttr (intersectsBounds sphere)
    (intersectsTriangle sphere) n indices =
  (false, indices ++
          flat_map (tripleOf indexAttr) (acceptedTriangles sphere indexAttr posAttr n)).
Proof.
  induction n as [box offset count|box l IHl r IHr]; intros indices.
  - simpl. destruct (intersectsBounds sphere box).
    + rewrite app_nil_r. reflexivity.
    + rewrite iterateOverTriangles_appends. reflexivity.
    + rewrite iterateOverTriangles_appends. simpl. rewrite filter_all. reflexivity.
  - cbn [shapecast acceptedTriangles]. destruct (intersectsBounds sphere box).
    + rewrite app_nil_r. reflexivity.
    + rewrite IHl, IHr, flat_map_app, app_assoc. reflexivity.
    + rewrite iterateOverTriangles_appends. simpl. rewrite filter_all. reflexivity.
Qed.

(** A region test that prunes every box leaves [indices] as it was. *)
Lemma shapecast_pruned n indices :
  (forall box, intersectsBounds sphere box = NOT_INTERSECTED) ->
  shapecast triangleArgs indexAttr posAttr (intersectsBounds sphere)
    (intersectsTriangle sphere) n indices = (false, indices).
Proof. intros Hnot. destruct n; cbn [shapecast]; rewrite Hnot; reflexivity. Qed.

Lemma acceptedTriangles_incl n t :
  In t (acceptedTriangles sphere indexAttr posAttr n) -> In t (trianglesUnder n).
Proof.
  induction n as [box offset count|box l IHl r IHr]; simpl.
  - destruct (intersectsBounds sphere box); simpl; [tauto| |tauto].
    intros Hin. apply filter_In in Hin. tauto.
  - destruct (intersectsBounds sphere box); simpl; [tauto| |tauto].
    rewrite !in_app_iff. tauto.
Qed.

Lemma acceptedTriangles_NoDup n :
  NoDup (trianglesUnder n) -> NoDup (acceptedTriangles sphere indexAttr posAttr n).
Proof.
  induction n as [box offset count|box l IHl r IHr]; simpl; intros Hnd.
  - destruct (intersectsBounds sphere box); [constructor| |exact Hnd].
    apply NoDup_filter_list, Hnd.
  - destruct (intersectsBounds sphere box); [constructor| |exact Hnd].
    destruct (NoDup_app_parts _ _ Hnd) as (Hl & Hr & Hdis).
    apply NoDup_app; [apply IHl, Hl|apply IHr, Hr|].
    intros t Ht Ht'. apply (Hdis t); apply acceptedTriangles_incl; assumption.
Qed.

End RegionQuery.

Section RegionOfStroke.
Context {F : Type} `{Number F} {C : Collaborators F}.

Lemma regionQuery_accepted (sphere : Sphere F) (g : BufferGeometry F) :
  regionQuery sphere g =
  flat_map (tripleOf (index g))
    (acceptedTriangles sphere (index g) (position g) (boundsTree g)).
Proof. unfold regionQuery. rewrite shapecast_appends. reflexivity. Qed.

(** A stroke whose query recorded nothing returns the geometry it was
    given. *)
Lemma stroke_without_indices (p : Params F) (m : Mesh F) (hit : Hit F) :
  strokeIndices p m hit = [] -> stroke p m hit = geometry m.
Proof.
  intros Hnil. unfold stroke, strokeDisplacement. rewrite Hnil. simpl.
  destruct (geometry m). reflexivity.
Qed.

End RegionOfStroke.

(** X5, what the region query records.  [indices] holds the three numbers of
    every accepted triangle, whole and in the order of the traversal, and of
    no other: the triangles below a node whose box the region test answers
    [CONTAINED] for, and below a box it answers [INTERSECTED] for those of
    the children, at a leaf those that meet the sphere; nothing below a box
    it answers [NOT_INTERSECTED] for.  The primitive test never cuts the
    traversal short.  Every accepted triangle lies below the root, and none
    is accepted twice when the leaves of the tree share no triangle. *)
Theorem region_query_records_accepted_triangles
    {F : Type} `{Number F} {C : Collaborators F}
    (sphere : Sphere F) (g : BufferGeometry F) :
  let accepted := acceptedTriangles sphere (index g) (position g) (boundsTree g) in
  fst (shapecast triangleArgs (index g) (position g) (intersectsBounds sphere)
         (intersectsTriangle sphere) (boundsTree g) []) = false /\
  regionQuery sphere g = flat_map (tripleOf (index g)) accepted /\
  length (regionQuery sphere g) = 3 * length accepted /\
  (forall t, In t accepted -> In t (trianglesUnder (boundsTree g))) /\
  (NoDup (trianglesUnder (boundsTree g)) -> NoDup accepted).
Proof.
  intros accepted. split; [rewrite shapecast_appends; reflexivity|].
  split; [apply regionQuery_accepted|]. split; [|split].
  - rewrite regionQuery_accepted. fold accepted.
    induction accepted as [|t ts IH]; [reflexivity|].
    simpl. rewrite length_app, IH. unfold tripleOf.
    destruct (triangleArgs (index g) t) as [[a b] c]. simpl. lia.
  - intros t. apply acceptedTriangles_incl.
  - apply acceptedTriangles_NoDup.
Qed.

(** X6, the set of line 316 under the reading of [a], [b], [c] as offsets.
    When the leaves of the bounds tree share no triangle, the offsets the
    query records are all different, and [new Set( indices )] holds exactly
    [indices], in the same order: the set removes nothing. *)
Theorem index_set_keeps_every_offset
    {F : Type} `{Number F} {C : Collaborators F}
    (p : Params F) (m : Mesh F) (hit : Hit F) :
  triangleArgs = cornerOffsets ->
  NoDup (trianglesUnder (boundsTree (geometry m))) ->
  NoDup (strokeIndices p m hit) /\
  new_Set (strokeIndices p m hit) = strokeIndices p m hit.
Proof.
  intros Hargs Hnd.
  assert (NoDup (strokeIndices p m hit)) as Hind.
  { unfold strokeIndices. rewrite regionQuery_accepted.
    unfold tripleOf. rewrite Hargs. apply cornerOffsets_NoDup.
    apply acceptedTriangles_NoDup, Hnd. }
  split; [exact Hind|apply new_Set_NoDup_id, Hind].
Qed.

(** ** The incidence map *)

Lemma ToInt32_small (n : Z) : (0 <= n < 2 ^ 31)%Z -> ToInt32 n = n.
Proof. intros Hn. unfold ToInt32. rewrite Z.mod_small; lia. Qed.

Lemma recordedFrom_more indexAttr visited i k t :
  recordedFrom indexAttr visited k t -> recordedFrom indexAttr (visited ++ [i]) k t.
Proof.
  intros (j & Hj & Hk & Ht). exists j. rewrite in_app_iff. auto.
Qed.

Section Incidence.
Context {F : Type} `{Number F}.
Variable indexAttr : list nat.
Variables tempVec2 tempVec3 : Vector3 F.
Variable p : Params F.

Lemma incidenceSound_step visited st i :
  incidenceSound indexAttr visited (snd st) ->
  incidenceSound indexAttr (visited ++ [i])
    (snd (displace indexAttr tempVec2 tempVec3 p st i)).
Proof.
  destruct st as [posAttr o]. cbn [snd]. intros Hsound.
  assert (Hcount: forall k,
            count_occ key_dec (map (getX indexAttr) visited) k <=
            count_occ key_dec (map (getX indexAttr) (visited ++ [i])) k).
  { intros k. rewrite map_app, count_occ_app. apply Nat.le_add_r. }
  destruct (beyondBrush tempVec2 p posAttr (getX indexAttr i)) eqn:Etest.
  - rewrite displace_skip by exact Etest. cbn [snd].
    intros k arr Hget. destruct (Hsound k arr Hget) as (Hne & Hlen & Hall).
    split; [exact Hne|]. split; [exact (Nat.le_trans _ _ _ Hlen (Hcount k))|].
    intros t Ht. apply recordedFrom_more, Hall, Ht.
  - rewrite displace_push by exact Etest. cbn [snd].
    set (ki := getX indexAttr i).
    intros k arr. rewrite obj_get_set.
    destruct (key_eqb k ki) eqn:Ek.
    + apply key_eqb_eq in Ek. subst k. intros [= <-].
      split; [intros E; apply app_eq_nil in E; destruct E as [_ E]; discriminate|].
      split.
      * rewrite length_app, map_app, count_occ_app.
        cbn [map count_occ length]. fold ki.
        destruct (key_dec ki ki) as [_|Hne]; [|congruence].
        apply Nat.add_le_mono; [|apply Nat.le_refl].
        destruct (obj_get o ki) as [arr0|] eqn:E0; [|apply Nat.le_0_l].
        destruct (Hsound ki arr0 E0) as (_ & Hlen & _). exact Hlen.
      * intros t Ht. apply in_app_iff in Ht. destruct Ht as [Ht|[<-|[]]].
        -- destruct (obj_get o ki) as [arr0|] eqn:E0; [|destruct Ht].
           destruct (Hsound ki arr0 E0) as (_ & _ & Hall).
           apply recordedFrom_more, Hall, Ht.
        -- exists i. rewrite in_app_iff. simpl. auto.
    + intros Hget. destruct (Hsound k arr Hget) as (Hne & Hlen & Hall).
      split; [exact Hne|]. split; [exact (Nat.le_trans _ _ _ Hlen (Hcount k))|].
      intros t Ht. apply recordedFrom_more, Hall, Ht.
Qed.

Lemma incidenceSound_fold todo : forall visited st,
  incidenceSound indexAttr visited (snd st) ->
  incidenceSound indexAttr (visited ++ todo)
    (snd (fold_left (displace indexAttr tempVec2 tempVec3 p) todo st)).
Proof.
  induction todo as [|i todo IH]; intros visited st Hst; simpl.
  - rewrite app_nil_r. exact Hst.
  - replace (visited ++ i :: todo) with ((visited ++ [i]) ++ todo)
      by (rewrite <- app_assoc; reflexivity).
    apply IH, incidenceSound_step, Hst.
Qed.

Lemma displacementPass_incidenceSound indexSet posAttr :
  incidenceSound indexAttr indexSet
    (snd (displacementPass indexAttr tempVec2 tempVec3 p indexSet posAttr)).
Proof.
  unfold displacementPass.
  apply (incidenceSound_fold indexSet (visited:=[]) (posAttr, [])).
  intros k arr Hget. discriminate.
Qed.

(** A write past the end of the array is lost. *)
Lemma setXYZ_out_of_range (a : list F) (v : nat) (x y z : F) :
  length a <= v * 3 -> setXYZ a (Some v) x y z = a.
Proof.
  intros Hv. cbn [setXYZ].
  rewrite !store_out_of_range; [reflexivity|rewrite ?store_length; lia..].
Qed.

End Incidence.

(** X8, what the incidence map records.  Every array of [indexToTriangles]
    after the loop is non-empty, so line 368 never divides by zero; it is no
    longer than the number of elements of the set that lead to its vertex;
    and each number in it is [~ ~ ( i / 3 )] for a recorded index [i] that
    leads to the vertex, which for an index below 3 * 2^31 is the number of
    the triangle whose corner the offset [i] is. *)
Theorem incidence_map_records_incident_triangles
    {F : Type} `{Number F} {C : Collaborators F}
    (p : Params F) (m : Mesh F) (hit : Hit F) (k : Key) (arr : list Z) :
  obj_get (snd (strokeDisplacement p m hit)) k = Some arr ->
  arr <> [] /\
  length arr <=
    count_occ key_dec
      (map (getX (index (geometry m))) (new_Set (strokeIndices p m hit))) k /\
  forall t, In t arr ->
    exists i, In i (strokeIndices p m hit) /\
              getX (index (geometry m)) i = k /\
              t = ToInt32 (Z.of_nat (i / 3)) /\
              ((Z.of_nat i < 3 * 2 ^ 31)%Z -> t = Z.of_nat (i / 3)).
Proof.
  intros Hget.
  destruct (displacementPass_incidenceSound (index (geometry m))
              (brushCenter m hit) (referenceDirection m hit) p
              (new_Set (strokeIndices p m hit)) (position (geometry m))
              k Hget) as (Hne & Hlen & Hall).
  split; [exact Hne|]. split; [exact Hlen|].
  intros t Ht. destruct (Hall t Ht) as (i & Hi & Hk & Hti).
  exists i. rewrite new_Set_In in Hi.
  split; [exact Hi|]. split; [exact Hk|]. split; [exact Hti|].
  intros Hsmall. rewrite Hti. apply ToInt32_small.
  rewrite (Nat2Z.inj_div i 3). split; [apply Z.div_pos; lia|].
  apply Z.div_lt_upper_bound; lia.
Qed.

(** X9, an index that leads to no vertex.  One call of the loop body whose
    index lies past the end of the index attribute, or leads to a vertex past
    the end of the position array, leaves the position array as it was,
    whatever the distance test answers. *)
Theorem index_out_of_range_moves_nothing
    {F : Type} `{Number F}
    (indexAttr : list nat) (tempVec2 tempVec3 : Vector3 F) (p : Params F)
    (posAttr : list F) (indexToTriangles : list (Key * list Z)) (i : nat) :
  match getX indexAttr i with
  | None => True
  | Some v => length posAttr <= v * 3
  end ->
  fst (displace indexAttr tempVec2 tempVec3 p (posAttr, indexToTriangles) i) = posAttr.
Proof.
  intros Hout. rewrite displace_moveVertex. cbn [fst]. unfold moveVertex.
  destruct (beyondBrush tempVec2 p posAttr (getX indexAttr i)); [reflexivity|].
  destruct (getX indexAttr i) as [v|]; [|reflexivity].
  apply setXYZ_out_of_range, Hout.
Qed.

(** ** The button *)

Lemma land_one_odd (b : N) : negb (N.eqb (N.land b 1) 0) = N.odd b.
Proof. destruct b as [|[q|q|]]; reflexivity. Qed.

Section Buttons.
Context {F : Type} `{Number F} {C : Collaborators F}.
Implicit Types (s : State) (e : Event) (trace : list Event).

Lemma render_buttons s :
  mouseState (render s) = mouseState s /\ lastMouseState (render s) = mouseState s.
Proof.
  unfold render. destruct (controls_active s); [split; reflexivity|].
  destruct (intersectObject (camera s) (mouse s) (targetMesh s)); split; reflexivity.
Qed.

Lemma buttonUp_cons e trace : buttonUp (e :: trace) -> buttonUp trace.
Proof. intros Hup b Hb. apply Hup. simpl. tauto. Qed.

Lemma released_step e s :
  buttonUp [e] ->
  mouseState s = false -> lastMouseState s = false ->
  mouseState (handle e s) = false /\ lastMouseState (handle e s) = false /\
  targetMesh (handle e s) = targetMesh s.
Proof.
  intros Hup Hm Hl.
  destruct e; cbn [handle with_pointer with_params with_controls
                   mouseState lastMouseState targetMesh]; auto.
  - rewrite land_one_odd. split; [|auto]. apply Hup. simpl. auto.
  - rewrite land_one_odd. split; [|auto]. apply Hup. simpl. auto.
  - destruct (render_buttons s) as (-> & ->).
    rewrite (render_not_pressed s Hm Hl). auto.
Qed.

Lemma released_run trace : forall s,
  buttonUp trace ->
  mouseState s = false -> lastMouseState s = false ->
  targetMesh (run trace s) = targetMesh s.
Proof.
  unfold run. induction trace as [|e rest IH]; intros s Hup Hm Hl; simpl; [reflexivity|].
  assert (buttonUp [e]) as He.
  { intros b Hb. apply Hup. simpl in *. tauto. }
  destruct (released_step s He Hm Hl) as (Hm' & Hl' & Hmesh).
  rewrite IH; [exact Hmesh|eapply buttonUp_cons, Hup|exact Hm'|exact Hl'].
Qed.

(** ** The brush and the orbit controls *)

Lemma render_brush s : brush_visible (render s) && controls_enabled (render s) = false.
Proof.
  unfold render. destruct (controls_active s); [reflexivity|].
  destruct (intersectObject (camera s) (mouse s) (targetMesh s)); reflexivity.
Qed.

Lemma handle_brush e s :
  brush_visible s && controls_enabled s = false ->
  brush_visible (handle e s) && controls_enabled (handle e s) = false.
Proof.
  intros Hs. destruct e; try exact Hs. apply render_brush.
Qed.

Lemma run_brush trace : forall s,
  brush_visible s && controls_enabled s = false ->
  brush_visible (run trace s) && controls_enabled (run trace s) = false.
Proof.
  unfold run. induction trace as [|e rest IH]; intros s Hs; simpl; [exact Hs|].
  apply IH, handle_brush, Hs.
Qed.

End Buttons.

(** X17, the end of a stroke.  With the button up, the next frame may still
    apply one stroke (line 247 also looks at [lastMouseState]); after that
    frame, whatever the pointer, the wheel, the controllers and the orbit
    controls do, no frame changes the mesh until an event reports the primary
    button as held.  With both flags down nothing changes it at all. *)
Theorem stroke_ends_one_frame_after_release
    {F : Type} `{Number F} {C : Collaborators F}
    (trace : list Event) (s : State) :
  mouseState s = false ->
  buttonUp trace ->
  targetMesh (run (frame :: trace) s) = targetMesh (render s) /\
  (lastMouseState s = false -> targetMesh (run trace s) = targetMesh s).
Proof.
  intros Hm Hup. split.
  - change (run (frame :: trace) s) with (run trace (render s)).
    destruct (render_buttons s) as (Hm' & Hl').
    apply released_run; [exact Hup|congruence|congruence].
  - intros Hl. apply released_run; assumption.
Qed.

(** X18, the brush and the orbit controls.  From the first frame on, in every
    state the program reaches, the brush is never shown while the orbit
    controls are enabled: a drag that starts on the drawn brush sculpts and
    does not turn the camera. *)
Theorem visible_brush_disables_controls
    {F : Type} `{Number F} {C : Collaborators F}
    (trace : list Event) (s : State) :
  let s' := run (frame :: trace) s in
  brush_visible s' && controls_enabled s' = false.
Proof.
  intros s'. unfold s'.
  change (run (frame :: trace) s) with (run trace (render s)).
  apply run_brush, render_brush.
Qed.

(** ** Binary64: what the program does with NaN and with zeros *)

Module Float64Facts.
Import PrimFloat FloatOps FloatAxioms SpecFloat.
Import Float64 Binary64.
Local Open Scope float_scope.

(** *** Comparison of specified floats *)

Lemma SFcompare_antisym (a b : spec_float) :
  SFcompare b a = option_map CompOpp (SFcompare a b).
Proof.
  destruct a as [s1|s1| |s1 m1 e1], b as [s2|s2| |s2 m2 e2]; cbn;
    try reflexivity; try (destruct s1; reflexivity); try (destruct s2; reflexivity);
    try (destruct s1, s2; reflexivity).
  destruct s1, s2; cbn; try reflexivity.
  - rewrite (Z.compare_antisym e1 e2).
    destruct (Z.compare e1 e2); cbn; try reflexivity.
    rewrite CompOpp_involutive. f_equal.
    rewrite Pos.compare_cont_antisym. reflexivity.
  - rewrite (Z.compare_antisym e1 e2).
    destruct (Z.compare e1 e2); cbn; try reflexivity.
    f_equal. rewrite Pos.compare_cont_antisym. reflexivity.
Qed.

Lemma SFcompare_refl (a : spec_float) :
  a <> S754_nan -> SFcompare a a = Some Eq.
Proof.
  destruct a as [s|s| |s m e]; cbn; try reflexivity; try congruence.
  - intros _. destruct s; reflexivity.
  - intros _. destruct s; rewrite Z.compare_refl;
      change (Pos.compare_cont Eq m m) with (Pos.compare m m);
      rewrite Pos.compare_refl; reflexivity.
Qed.

Lemma SFcompare_None (a b : spec_float) :
  SFcompare a b = None -> a = S754_nan \/ b = S754_nan.
Proof.
  destruct a as [s1|s1| |s1 m1 e1], b as [s2|s2| |s2 m2 e2]; cbn;
    auto; discriminate.
Qed.

(** *** What the comparisons of binary64 say *)

Lemma is_nan_spec (x : float) : is_nan x = true <-> Prim2SF x = S754_nan.
Proof.
  unfold is_nan. rewrite eqb_spec. unfold SFeqb. split.
  - intros Hx. destruct (Prim2SF x) eqn:E; try reflexivity;
      rewrite SFcompare_refl in Hx by discriminate; discriminate.
  - intros ->. reflexivity.
Qed.

Lemma is_nan_false (x : float) : is_nan x = false <-> Prim2SF x <> S754_nan.
Proof.
  rewrite <- is_nan_spec. destruct (is_nan x); split; congruence.
Qed.

Lemma nan_unique (x : float) : Prim2SF x = S754_nan -> x = nan.
Proof. intros E. apply Prim2SF_inj. rewrite E. reflexivity. Qed.

Lemma ltb_leb (a b : float) : (a <? b) = true -> (a <=? b) = true.
Proof.
  rewrite ltb_spec, leb_spec. unfold SFltb, SFleb.
  destruct (SFcompare (Prim2SF a) (Prim2SF b)) as [[| |]|]; congruence.
Qed.

Lemma leb_refl (a : float) : is_nan a = false -> (a <=? a) = true.
Proof.
  rewrite is_nan_false, leb_spec. intros Ha. unfold SFleb.
  rewrite SFcompare_refl by exact Ha. reflexivity.
Qed.

(** Two numbers neither of which is below the other compare equal. *)
Lemma not_ltb_leb (a b : float) :
  is_nan a = false -> is_nan b = false ->
  (a <? b) = false -> (b <? a) = false ->
  (a <=? b) = true /\ (b <=? a) = true.
Proof.
  rewrite !is_nan_false, !ltb_spec, !leb_spec. unfold SFltb, SFleb.
  intros Ha Hb. rewrite (SFcompare_antisym (Prim2SF a) (Prim2SF b)).
  destruct (SFcompare (Prim2SF a) (Prim2SF b)) as [[| |]|] eqn:E; cbn;
    try discriminate; auto.
  destruct (SFcompare_None _ _ E); contradiction.
Qed.

(** *** [Math.min], [Math.max] and the clamp of line 214 *)

Lemma js_min_cases (x hi : float) :
  js_min x hi = nan \/
  (js_min x hi = x /\ is_nan x = false /\ (x <=? hi) = true) \/
  (js_min x hi = hi /\ is_nan hi = false).
Proof.
  unfold js_min.
  destruct (is_nan x) eqn:Ex; [left; reflexivity|].
  destruct (is_nan hi) eqn:Eh; [left; reflexivity|]. cbn [orb].
  destruct (x <? hi) eqn:E1; [right; left; auto using ltb_leb|].
  destruct (hi <? x) eqn:E2; [right; right; auto|].
  destruct (get_sign x); [|right; right; auto].
  right; left. split; [reflexivity|]. split; [reflexivity|].
  apply (not_ltb_leb Ex Eh E1 E2).
Qed.

Lemma js_max_cases (y lo : float) :
  js_max y lo = nan \/
  (js_max y lo = y /\ is_nan y = false /\ (lo <=? y) = true) \/
  (js_max y lo = lo /\ is_nan lo = false).
Proof.
  unfold js_max.
  destruct (is_nan y) eqn:Ey; [left; reflexivity|].
  destruct (is_nan lo) eqn:El; [left; reflexivity|]. cbn [orb].
  destruct (y <? lo) eqn:E1; [right; right; auto|].
  destruct (lo <? y) eqn:E2; [right; left; auto using ltb_leb|].
  destruct (get_sign y); [right; right; auto|].
  right; left. split; [reflexivity|]. split; [reflexivity|].
  apply (not_ltb_leb Ey El E1 E2).
Qed.

(** [Math.max( Math.min( x, hi ), lo )] is [NaN] or lies between [lo] and
    [hi]. *)
Lemma js_clamp (x lo hi : float) :
  (lo <=? hi) = true ->
  let r := js_max (js_min x hi) lo in
  is_nan r = true \/ ((lo <=? r) = true /\ (r <=? hi) = true).
Proof.
  intros Hlh r. unfold r.
  destruct (js_max_cases (js_min x hi) lo) as [-> | [(-> & Hy & Hlo) | (-> & Hl)]].
  - left. reflexivity.
  - right. split; [exact Hlo|].
    destruct (js_min_cases x hi) as [E | [(E & Hx & Hxh) | (E & Hh)]].
    + rewrite E in Hy. discriminate.
    + rewrite E. exact Hxh.
    + rewrite E. apply leb_refl, Hh.
  - right. split; [apply leb_refl, Hl|exact Hlh].
Qed.

Lemma js_min_nan_r (a : float) : js_min a nan = nan.
Proof. unfold js_min. change (is_nan nan) with true. rewrite orb_true_r. reflexivity. Qed.

Lemma js_max_nan_r (a : float) : js_max a nan = nan.
Proof. unfold js_max. change (is_nan nan) with true. rewrite orb_true_r. reflexivity. Qed.

(** *** Arithmetic on [NaN] *)

Lemma add_nan_l (x : float) : nan + x = nan.
Proof. apply Prim2SF_inj. rewrite add_spec. reflexivity. Qed.

Lemma add_nan_r (x : float) : x + nan = nan.
Proof.
  apply Prim2SF_inj. rewrite add_spec. change (Prim2SF nan) with S754_nan.
  destruct (Prim2SF x); reflexivity.
Qed.

Lemma sub_nan_l (x : float) : nan - x = nan.
Proof. apply Prim2SF_inj. rewrite sub_spec. reflexivity. Qed.

Lemma mul_nan_l (x : float) : nan * x = nan.
Proof. apply Prim2SF_inj. rewrite mul_spec. reflexivity. Qed.

Lemma leb_nan_l (x : float) : (nan <=? x) = false.
Proof. rewrite leb_spec. reflexivity. Qed.

Lemma ltb_nan_r (x : float) : (x <? nan) = false.
Proof.
  rewrite ltb_spec. change (Prim2SF nan) with S754_nan. unfold SFltb.
  destruct (Prim2SF x); reflexivity.
Qed.

(** *** Arithmetic on zeros *)

Lemma zeroish_zero : zeroish 0.
Proof. left. exists false. reflexivity. Qed.

Lemma mul_zero_l (x : float) : zeroish (0 * x).
Proof.
  unfold zeroish. rewrite mul_spec. change (Prim2SF 0) with (S754_zero false).
  destruct (Prim2SF x) as [s|s| |s m e]; cbn; eauto.
Qed.

Lemma add_zeroish (x y : float) : zeroish x -> zeroish y -> zeroish (x + y).
Proof.
  unfold zeroish. rewrite add_spec.
  intros [[s ->]| ->] [[s' ->]| ->]; cbn; eauto.
  destruct s, s'; cbn; eauto.
Qed.

Lemma div_one_zeroish (x : float) : zeroish x -> infinite (1 / x).
Proof.
  unfold zeroish, infinite. rewrite div_spec.
  change (Prim2SF 1) with (S754_finite false 4503599627370496 (-52)).
  intros [[s ->]| ->]; cbn; eauto.
Qed.

Lemma mul_zeroish_infinite (x y : float) : zeroish x -> infinite y -> x * y = nan.
Proof.
  unfold zeroish, infinite. intros Hx Hy. apply nan_unique. rewrite mul_spec.
  destruct Hx as [[s ->]| ->], Hy as [[s' ->]| ->]; reflexivity.
Qed.

(** *** The brush sphere of a mesh whose world matrix has no inverse *)

(** The zero matrix takes every point to (NaN, NaN, NaN): the divisor of
    [applyMatrix4] is a zero. *)
Lemma applyMatrix4_zero4 (v : Vector3 float) :
  applyMatrix4 v zero4 = Vec3 nan nan nan.
Proof.
  destruct v as [x y z].
  assert (Hz: zeroish (0 * x + 0 * y + 0 * z + 0)).
  { repeat apply add_zeroish; auto using mul_zero_l, zeroish_zero. }
  pose proof (mul_zeroish_infinite Hz (div_one_zeroish Hz)) as Hn.
  change (Vec3 ((0 * x + 0 * y + 0 * z + 0) * (1 / (0 * x + 0 * y + 0 * z + 0)))
               ((0 * x + 0 * y + 0 * z + 0) * (1 / (0 * x + 0 * y + 0 * z + 0)))
               ((0 * x + 0 * y + 0 * z + 0) * (1 / (0 * x + 0 * y + 0 * z + 0)))
          = Vec3 nan nan nan).
  rewrite Hn. reflexivity.
Qed.

(** A sphere whose centre is not a number meets no box. *)
Lemma intersectsBounds_nan (r : float) (box : Box3 float) :
  intersectsBounds (mkSphere (Vec3 nan nan nan) r) box = NOT_INTERSECTED.
Proof.
  unfold intersectsBounds.
  assert (intersectsBox (mkSphere (Vec3 nan nan nan) r) box = false) as ->;
    [|reflexivity].
  unfold intersectsBox, clampPoint, clamp, distanceToSquared.
  cbn [center radius vx vy vz].
  cbn [fle fadd fsub fmul fmax fmin number].
  rewrite !js_min_nan_r, !js_max_nan_r, !sub_nan_l, !mul_nan_l, !add_nan_l.
  apply leb_nan_l.
Qed.

(** A vertex that is not there passes the distance test: [NaN > size] is
    false. *)
Lemma beyondBrush_undefined (tempVec2 : Vector3 float) (p : Params float)
    (posAttr : list float) :
  beyondBrush tempVec2 p posAttr None = false.
Proof.
  unfold beyondBrush, distanceTo, distanceToSquared.
  cbn [fromBufferAttribute vx vy vz].
  cbn [fgt fsqrt fadd fsub fmul fnan number].
  rewrite !sub_nan_l, !mul_nan_l, !add_nan_l.
  unfold js_gt.
  replace (sqrt nan) with nan by (vm_compute; reflexivity).
  apply ltb_nan_r.
Qed.

Lemma leb_nan_r (x : float) : (x <=? nan) = false.
Proof.
  rewrite leb_spec. change (Prim2SF nan) with S754_nan. unfold SFleb.
  destruct (Prim2SF x); reflexivity.
Qed.

(** A comparison that holds has numbers on both sides. *)
Lemma leb_number_l (a b : float) : (a <=? b) = true -> is_nan a = false.
Proof.
  rewrite leb_spec, is_nan_false. unfold SFleb. intros H E. rewrite E in H.
  discriminate.
Qed.

Lemma leb_number_r (a b : float) : (a <=? b) = true -> is_nan b = false.
Proof.
  rewrite leb_spec, is_nan_false. unfold SFleb. intros H E. rewrite E in H.
  destruct (Prim2SF a); discriminate.
Qed.

(** *** Rounding never invents [NaN] *)

Lemma shr_1_nonneg mrs : (0 <= shr_m mrs)%Z -> (0 <= shr_m (shr_1 mrs))%Z.
Proof.
  destruct mrs as [m r s]. cbn [shr_m]. intros Hm.
  destruct m as [|[q|q|]|q]; cbn; lia.
Qed.

Lemma iter_shr_1_nonneg n : forall mrs,
  (0 <= shr_m mrs)%Z -> (0 <= shr_m (iter_pos shr_1 n mrs))%Z.
Proof.
  induction n as [n IH|n IH|]; intros mrs Hm; cbn [iter_pos].
  - apply IH, IH, shr_1_nonneg, Hm.
  - apply IH, IH, Hm.
  - apply shr_1_nonneg, Hm.
Qed.

Lemma shr_fexp_nonneg prec emax m e l :
  (0 <= m)%Z -> (0 <= shr_m (fst (shr_fexp prec emax m e l)))%Z.
Proof.
  intros Hm. unfold shr_fexp, shr.
  assert (0 <= shr_m (shr_record_of_loc m l))%Z as H0
    by (destruct l as [|[| |]]; exact Hm).
  destruct (fexp prec emax (Zdigits2 m + e) - e)%Z; cbn [fst]; auto.
  apply iter_shr_1_nonneg, H0.
Qed.

Lemma round_nearest_even_nonneg m l : (0 <= m)%Z -> (0 <= round_nearest_even m l)%Z.
Proof.
  intros Hm. unfold round_nearest_even.
  destruct l as [|[| |]]; try lia. destruct (Z.even m); lia.
Qed.

Lemma binary_round_aux_number prec emax s m e l :
  (0 <= m)%Z -> binary_round_aux prec emax s m e l <> S754_nan.
Proof.
  intros Hm. unfold binary_round_aux.
  pose proof (@shr_fexp_nonneg prec emax m e l Hm) as H1.
  destruct (shr_fexp prec emax m e l) as [mrs' e'] eqn:E1. cbn [fst] in H1.
  pose proof (@shr_fexp_nonneg prec emax _ e' loc_Exact
                (@round_nearest_even_nonneg _ (loc_of_shr_record mrs') H1)) as H2.
  destruct (shr_fexp prec emax _ e' loc_Exact) as [mrs'' e''] eqn:E2. cbn [fst] in H2.
  destruct (shr_m mrs'') as [|q|q]; try discriminate; [|lia].
  destruct (Z.leb e'' (emax - prec)); discriminate.
Qed.

Lemma binary_normalize_number prec emax m e sz :
  binary_normalize prec emax m e sz <> S754_nan.
Proof.
  unfold binary_normalize, binary_round.
  destruct m as [|q|q]; [discriminate| |];
    destruct (shl_align _ _ _) as [mz ez]; apply binary_round_aux_number; lia.
Qed.

(** *** Which results are numbers *)

(** A number times a finite value other than zero, and a finite value plus a
    number, are numbers. *)
Lemma SFmul_number (a b : spec_float) :
  a <> S754_nan -> (exists s m e, b = S754_finite s m e) ->
  SFmul prec emax a b <> S754_nan.
Proof.
  intros Ha (s & m & e & ->).
  destruct a as [sa|sa| |sa ma ea]; cbn; try discriminate; try congruence.
  apply binary_round_aux_number. lia.
Qed.

Lemma SFadd_number (a b : spec_float) :
  finiteSF a -> b <> S754_nan -> SFadd prec emax a b <> S754_nan.
Proof.
  intros Ha Hb.
  destruct a as [sa|sa| |sa ma ea]; try contradiction;
    destruct b as [sb|sb| |sb mb eb]; cbn; try discriminate; try congruence.
  - destruct sa, sb; discriminate.
  - apply binary_normalize_number.
Qed.

Lemma mul_number (x c : float) :
  is_nan x = false -> (exists s m e, Prim2SF c = S754_finite s m e) ->
  is_nan (x * c) = false.
Proof. rewrite !is_nan_false, mul_spec. apply SFmul_number. Qed.

Lemma add_number (x y : float) :
  finite x -> is_nan y = false -> is_nan (x + y) = false.
Proof. unfold finite. rewrite !is_nan_false, add_spec. apply SFadd_number. Qed.

(** A number between a positive finite number and a finite number is
    positive and finite. *)
Lemma between_finite (lo hi x : float) :
  (exists m e, Prim2SF lo = S754_finite false m e) ->
  finite hi ->
  within lo hi x ->
  exists m e, Prim2SF x = S754_finite false m e.
Proof.
  unfold finite, within. rewrite !leb_spec.
  intros (ml & el & ->) Hhi. unfold SFleb.
  destruct (Prim2SF x) as [s|s| |s m e]; cbn; intros [H1 H2]; try discriminate;
    destruct s; try discriminate.
  - destruct (Prim2SF hi) as [sh|sh| |sh mh eh]; try contradiction; discriminate.
  - eauto.
Qed.

Lemma positive_finite_gt_zero (x : float) :
  (exists m e, Prim2SF x = S754_finite false m e) -> (0 <? x) = true.
Proof. intros (m & e & E). rewrite ltb_spec, E. reflexivity. Qed.

(** *** [Math.min] and [Math.max] of two numbers *)

Lemma js_min_spec (a b : float) :
  is_nan a = false -> is_nan b = false ->
  (js_min a b = a \/ js_min a b = b) /\
  (js_min a b <=? a) = true /\ (js_min a b <=? b) = true.
Proof.
  intros Ha Hb. unfold js_min. rewrite Ha, Hb. cbn [orb].
  destruct (a <? b) eqn:E1; [auto using ltb_leb, leb_refl|].
  destruct (b <? a) eqn:E2; [auto using ltb_leb, leb_refl|].
  destruct (not_ltb_leb Ha Hb E1 E2) as [H1 H2].
  destruct (get_sign a); auto using leb_refl.
Qed.

Lemma js_max_spec (a b : float) :
  is_nan a = false -> is_nan b = false ->
  (js_max a b = a \/ js_max a b = b) /\
  (a <=? js_max a b) = true /\ (b <=? js_max a b) = true.
Proof.
  intros Ha Hb. unfold js_max. rewrite Ha, Hb. cbn [orb].
  destruct (a <? b) eqn:E1; [auto using ltb_leb, leb_refl|].
  destruct (b <? a) eqn:E2; [auto using ltb_leb, leb_refl|].
  destruct (not_ltb_leb Ha Hb E1 E2) as [H1 H2].
  destruct (get_sign a); auto using leb_refl.
Qed.

(** [Math.max( Math.min( x, hi ), lo )] of a number lies between [lo] and
    [hi]. *)
Lemma js_clamp_number (x lo hi : float) :
  (lo <=? hi) = true -> is_nan x = false ->
  within lo hi (js_max (js_min x hi) lo).
Proof.
  intros Hlh Hx.
  pose proof (leb_number_l Hlh) as Hlo. pose proof (leb_number_r Hlh) as Hhi.
  destruct (js_min_spec x hi Hx Hhi) as (Hm & _ & Hmh).
  assert (is_nan (js_min x hi) = false) as Hmn by (destruct Hm as [-> | ->]; assumption).
  destruct (js_max_spec _ lo Hmn Hlo) as (Hr & _ & Hlr).
  split; [exact Hlr|].
  destruct Hr as [-> | ->]; assumption.
Qed.

(** [Math.max( lo, Math.min( hi, x ) )], the clamp with its arguments the
    other way round. *)
Lemma js_clamp_number' (x lo hi : float) :
  (lo <=? hi) = true -> is_nan x = false ->
  within lo hi (js_max lo (js_min hi x)).
Proof.
  intros Hlh Hx.
  pose proof (leb_number_l Hlh) as Hlo. pose proof (leb_number_r Hlh) as Hhi.
  destruct (js_min_spec hi x Hhi Hx) as (Hm & Hmh & _).
  assert (is_nan (js_min hi x) = false) as Hmn by (destruct Hm as [-> | ->]; assumption).
  destruct (js_max_spec lo _ Hlo Hmn) as (Hr & Hlr & _).
  split; [exact Hlr|].
  destruct Hr as [-> | ->]; assumption.
Qed.

(** *** The order of binary64 *)

Ltac order_cases :=
  repeat match goal with
  | |- context [Z.compare ?a ?b] =>
      let E := fresh "E" in destruct (Z.compare_spec a b) as [E|E|E]
  | |- context [Pos.compare_cont Eq ?a ?b] =>
      change (Pos.compare_cont Eq a b) with (Pos.compare a b)
  | |- context [Pos.compare ?a ?b] =>
      let E := fresh "E" in destruct (Pos.compare_spec a b) as [E|E|E]
  end.

Lemma SFleb_ltb_trans (a b c : spec_float) :
  SFleb a b = true -> SFltb b c = true -> SFltb a c = true.
Proof.
  unfold SFleb, SFltb.
  destruct a as [sa|sa| |sa ma ea], b as [sb|sb| |sb mb eb], c as [sc|sc| |sc mc ec];
    cbn; try discriminate; auto;
    repeat match goal with s : bool |- _ => destruct s end;
    cbn; try discriminate; auto;
    order_cases; cbn; try discriminate; auto; intros _ _; exfalso; lia.
Qed.

Lemma leb_ltb_trans (a b c : float) :
  (a <=? b) = true -> (b <? c) = true -> (a <? c) = true.
Proof. rewrite !leb_spec, !ltb_spec. apply SFleb_ltb_trans. Qed.

(** A number that compares equal to a finite number other than zero is that
    number. *)
Lemma SFcompare_Eq_finite (a : spec_float) s m e :
  SFcompare a (S754_finite s m e) = Some Eq -> a = S754_finite s m e.
Proof.
  destruct a as [sa|sa| |sa ma ea]; cbn; try discriminate.
  - destruct s; discriminate.
  - destruct sa; discriminate.
  - destruct sa, s; try discriminate;
      destruct (Z.compare_spec ea e) as [E|E|E]; try discriminate;
      change (Pos.compare_cont Eq ma m) with (Pos.compare ma m);
      destruct (Pos.compare_spec ma m) as [E'|E'|E']; try discriminate;
      intros _; subst; reflexivity.
Qed.

(** [Math.max( Math.min( x, hi ), lo )] of a number at or below [lo] is [lo]
    itself. *)
Lemma js_clamp_low (x lo hi : float) :
  (exists s m e, Prim2SF lo = S754_finite s m e) ->
  (lo <? hi) = true -> (x <=? lo) = true ->
  js_max (js_min x hi) lo = lo.
Proof.
  intros (s & m & e & Elo) Hlh Hx.
  pose proof (leb_number_l Hx) as Hxn. pose proof (leb_number_r Hx) as Hlo.
  pose proof (leb_number_r (ltb_leb Hlh)) as Hhi.
  assert (js_min x hi = x) as ->.
  { unfold js_min. rewrite Hxn, Hhi. cbn [orb].
    rewrite (leb_ltb_trans Hx Hlh). reflexivity. }
  unfold js_max. rewrite Hxn, Hlo. cbn [orb].
  destruct (x <? lo) eqn:E1; [reflexivity|].
  assert ((lo <? x) = false) as E2.
  { revert Hx. rewrite leb_spec, ltb_spec. unfold SFleb, SFltb.
    rewrite (SFcompare_antisym (Prim2SF x) (Prim2SF lo)).
    destruct (SFcompare (Prim2SF x) (Prim2SF lo)) as [[| |]|]; cbn; congruence. }
  rewrite E2. destruct (get_sign x); [reflexivity|].
  apply Prim2SF_inj. rewrite Elo. apply SFcompare_Eq_finite. rewrite <- Elo.
  revert Hx E1. rewrite leb_spec, ltb_spec. unfold SFleb, SFltb.
  destruct (SFcompare (Prim2SF x) (Prim2SF lo)) as [[| |]|]; congruence.
Qed.

(** *** The size the wheel stores *)

(** From a size within the range, a [deltaY] that is a number gives a raw
    size that is a number. *)
Lemma wheelRaw_number (deltaY : float) (deltaMode : N) (p : Params float) :
  within (lit 5 100) (lit 25 100) (size p) -> is_nan deltaY = false ->
  is_nan (wheelRaw deltaY deltaMode p) = false.
Proof.
  intros Hsize Hd. unfold wheelRaw.
  assert (forall d : float, is_nan d = false -> is_nan (d * fint 40) = false) as H40.
  { intros d Hn. apply mul_number; [exact Hn|]. vm_compute. eauto. }
  apply add_number.
  - destruct (@between_finite (lit 5 100) (lit 25 100) (size p)) as (m & e & E);
      [vm_compute; eauto|vm_compute; exact I|exact Hsize|].
    unfold finite. rewrite E. exact I.
  - apply mul_number; [|vm_compute; eauto].
    destruct (N.eqb deltaMode 1), (N.eqb deltaMode 2); auto.
Qed.

Lemma onWheel_within (deltaY : float) (deltaMode : N) (p : Params float) :
  is_nan (wheelRaw deltaY deltaMode p) = false ->
  within (lit 5 100) (lit 25 100) (size (onWheel deltaY deltaMode p)).
Proof.
  intros Hraw. rewrite onWheel_clamps. cbn [size].
  apply js_clamp_number; [vm_compute; reflexivity|exact Hraw].
Qed.

Lemma onWheel_low (deltaY : float) (deltaMode : N) (p : Params float) :
  (wheelRaw deltaY deltaMode p <=? lit 5 100) = true ->
  size (onWheel deltaY deltaMode p) = lit 5 100.
Proof.
  intros Hraw. rewrite onWheel_clamps. cbn [size].
  apply js_clamp_low; [vm_compute; eauto|vm_compute; reflexivity|exact Hraw].
Qed.

Lemma params0_valid : validParams params0.
Proof. repeat split; vm_compute; reflexivity. Qed.

Section Parameters.
Context {C : Collaborators float}.

Lemma carriesNumbers_cons e trace :
  carriesNumbers (e :: trace) -> carriesNumbers trace.
Proof. intros Hn e' He'. apply Hn. right. exact He'. Qed.

Lemma handle_validParams (e : Event) (s : State) :
  guiKeepsRange -> carriesNumbers [e] ->
  validParams (params s) -> validParams (params (handle e s)).
Proof.
  intros Hgui Hn [Hs Hi]. specialize (Hn e (or_introl eq_refl)).
  destruct e; try exact (conj Hs Hi).
  - cbn [handle with_params params]. split; [|exact Hi].
    apply onWheel_within, wheelRaw_number; assumption.
  - split; [|exact Hi].
    apply Hgui; [vm_compute; reflexivity|exact Hn].
  - split; [exact Hs|].
    apply Hgui; [vm_compute; reflexivity|exact Hn].
  - cbn [handle]. rewrite render_params. exact (conj Hs Hi).
Qed.

Lemma run_validParams (trace : list Event) : forall s : State,
  guiKeepsRange -> carriesNumbers trace ->
  validParams (params s) -> validParams (params (run trace s)).
Proof.
  unfold run. induction trace as [|e rest IH]; intros s Hgui Hn Hs; simpl; [exact Hs|].
  apply IH; [exact Hgui|apply (carriesNumbers_cons Hn)|].
  apply handle_validParams; [exact Hgui| |exact Hs].
  intros e' [<-|[]]. apply Hn. left. reflexivity.
Qed.

(** A sphere whose radius is not a number meets no box, and a stroke whose
    size is not a number records nothing. *)
Lemma intersectsBounds_nan_radius (c : Vector3 float) (box : Box3 float) :
  intersectsBounds (mkSphere c nan) box = NOT_INTERSECTED.
Proof.
  unfold intersectsBounds.
  assert (intersectsBox (mkSphere c nan) box = false) as ->; [|reflexivity].
  unfold intersectsBox. cbn [center radius]. cbn [fle fmul number].
  rewrite mul_nan_l. apply leb_nan_r.
Qed.

Lemma stroke_nan_size (p : Params float) (m : Mesh float) (hit : Hit float) :
  is_nan (size p) = true ->
  strokeIndices p m hit = [] /\ stroke p m hit = geometry m.
Proof.
  intros Hn. apply is_nan_spec, nan_unique in Hn.
  assert (strokeIndices p m hit = []) as Hnil.
  { unfold strokeIndices, regionQuery.
    rewrite shapecast_pruned; [reflexivity|].
    intros box. unfold brushSphere. rewrite Hn. apply intersectsBounds_nan_radius. }
  split; [exact Hnil|]. apply stroke_without_indices, Hnil.
Qed.

End Parameters.

(** *** The mesh as the example places it *)

(** [Matrix4.invert] of the identity is the identity: every product and sum
    it forms is exact. *)
Lemma invert_identity4 : invert (identity4 (F:=float)) = identity4.
Proof. vm_compute. reflexivity. Qed.

(** *** Numbers up to the sign of zero *)

Lemma sameNumber_SF (a b : float) :
  sameNumber a b <-> sameSF (Prim2SF a) (Prim2SF b).
Proof.
  unfold sameNumber, sameSF, signedZero. split.
  - intros [->|Hz]; auto.
  - intros [E|Hz]; auto. left. apply Prim2SF_inj, E.
Qed.

Lemma sameNumber_refl (a : float) : sameNumber a a.
Proof. left. reflexivity. Qed.

Lemma sameNumber_trans (a b c : float) :
  sameNumber a b -> sameNumber b c -> sameNumber a c.
Proof.
  intros [->|[Ha Hb]] [->|[Hb' Hc]]; try (left; reflexivity);
    right; auto.
Qed.

Lemma sameNumber_finite (a b : float) : sameNumber a b -> finite b -> finite a.
Proof.
  intros [->|[(s & Ea) _]] Fb; [exact Fb|]. unfold finite. rewrite Ea. exact I.
Qed.

Ltac same_cases :=
  cbn; first [ left; reflexivity | right; split; eexists; reflexivity ].

Lemma SFadd_same (x' x y' y : spec_float) :
  sameSF x' x -> sameSF y' y -> sameSF (SF64add x' y') (SF64add x y).
Proof.
  intros [->|((s1 & ->) & (s2 & ->))] [->|((s3 & ->) & (s4 & ->))].
  - left. reflexivity.
  - destruct x as [sx|sx| |sx mx ex]; try destruct sx; destruct s3, s4; same_cases.
  - destruct y as [sy|sy| |sy my ey]; try destruct sy; destruct s1, s2; same_cases.
  - destruct s1, s2, s3, s4; same_cases.
Qed.

Lemma SFsub_same (x' x y' y : spec_float) :
  sameSF x' x -> sameSF y' y -> sameSF (SF64sub x' y') (SF64sub x y).
Proof.
  intros [->|((s1 & ->) & (s2 & ->))] [->|((s3 & ->) & (s4 & ->))].
  - left. reflexivity.
  - destruct x as [sx|sx| |sx mx ex]; try destruct sx; destruct s3, s4; same_cases.
  - destruct y as [sy|sy| |sy my ey]; try destruct sy; destruct s1, s2; same_cases.
  - destruct s1, s2, s3, s4; same_cases.
Qed.

Lemma SFmul_same (x' x y' y : spec_float) :
  sameSF x' x -> sameSF y' y -> sameSF (SF64mul x' y') (SF64mul x y).
Proof.
  intros [->|((s1 & ->) & (s2 & ->))] [->|((s3 & ->) & (s4 & ->))].
  - left. reflexivity.
  - destruct x as [sx|sx| |sx mx ex]; try destruct sx; destruct s3, s4; same_cases.
  - destruct y as [sy|sy| |sy my ey]; try destruct sy; destruct s1, s2; same_cases.
  - destruct s1, s2, s3, s4; same_cases.
Qed.

Lemma SFmul_square (x' x : spec_float) :
  sameSF x' x -> SF64mul x' x' = SF64mul x x.
Proof.
  intros [->|((s1 & ->) & (s2 & ->))]; [reflexivity|].
  destruct s1, s2; reflexivity.
Qed.

Lemma add_same (a' a b' b : float) :
  sameNumber a' a -> sameNumber b' b -> sameNumber (a' + b') (a + b).
Proof. rewrite !sameNumber_SF, !add_spec. apply SFadd_same. Qed.

Lemma sub_same (a' a b' b : float) :
  sameNumber a' a -> sameNumber b' b -> sameNumber (a' - b') (a - b).
Proof. rewrite !sameNumber_SF, !sub_spec. apply SFsub_same. Qed.

Lemma mul_same (a' a b' b : float) :
  sameNumber a' a -> sameNumber b' b -> sameNumber (a' * b') (a * b).
Proof. rewrite !sameNumber_SF, !mul_spec. apply SFmul_same. Qed.

Lemma mul_square (a' a : float) : sameNumber a' a -> a' * a' = a * a.
Proof.
  rewrite sameNumber_SF. intros Hs. apply Prim2SF_inj.
  rewrite !mul_spec. apply SFmul_square, Hs.
Qed.

Lemma fround_same (a' a : float) :
  sameNumber a' a -> sameNumber (Math_fround a') (Math_fround a).
Proof.
  intros [->|[(s1 & E1) (s2 & E2)]]; [left; reflexivity|].
  unfold Math_fround. rewrite E1, E2. right. split; eexists; eassumption.
Qed.

Lemma fround_kept (a' a : float) :
  float32 a -> sameNumber a' a -> sameNumber (Math_fround a') a.
Proof.
  intros Ha Hs. apply fround_same in Hs. unfold float32 in Ha.
  rewrite Ha in Hs. exact Hs.
Qed.

(** *** Vectors up to the sign of zero *)

Lemma sameVector_refl (v : Vector3 float) : sameVector v v.
Proof. repeat split; apply sameNumber_refl. Qed.

Lemma subVectors_same (a' a b' b : Vector3 float) :
  sameVector a' a -> sameVector b' b ->
  sameVector (subVectors a' b') (subVectors a b).
Proof.
  intros (Hx & Hy & Hz) (Kx & Ky & Kz). repeat split; cbn; apply sub_same; assumption.
Qed.

Lemma cross_same (a' a b' b : Vector3 float) :
  sameVector a' a -> sameVector b' b -> sameVector (cross a' b') (cross a b).
Proof.
  intros (Hx & Hy & Hz) (Kx & Ky & Kz).
  repeat split; cbn; apply sub_same; apply mul_same; assumption.
Qed.

Lemma v_add_same (a' a b' b : Vector3 float) :
  sameVector a' a -> sameVector b' b -> sameVector (v_add a' b') (v_add a b).
Proof.
  intros (Hx & Hy & Hz) (Kx & Ky & Kz). repeat split; cbn; apply add_same; assumption.
Qed.

Lemma multiplyScalar_same (a' a : Vector3 float) (s : float) :
  sameVector a' a -> sameVector (multiplyScalar a' s) (multiplyScalar a s).
Proof.
  intros (Hx & Hy & Hz).
  repeat split; cbn; apply mul_same; auto using sameNumber_refl.
Qed.

Lemma lengthSq_same (a' a : Vector3 float) :
  sameVector a' a -> lengthSq a' = lengthSq a.
Proof.
  intros (Hx & Hy & Hz). unfold lengthSq. cbn.
  rewrite (mul_square Hx), (mul_square Hy), (mul_square Hz). reflexivity.
Qed.

Lemma distanceTo_same (a' a c : Vector3 float) :
  sameVector a' a -> distanceTo a' c = distanceTo a c.
Proof.
  intros (Hx & Hy & Hz). unfold distanceTo, distanceToSquared. cbn.
  rewrite (mul_square (sub_same Hx (sameNumber_refl (vx c)))).
  rewrite (mul_square (sub_same Hy (sameNumber_refl (vy c)))).
  rewrite (mul_square (sub_same Hz (sameNumber_refl (vz c)))).
  reflexivity.
Qed.

Lemma stored_same (a' a : Vector3 float) :
  sameVector a' a -> sameVector (stored a') (stored a).
Proof. intros (Hx & Hy & Hz). repeat split; cbn; apply fround_same; assumption. Qed.

Lemma getNormal_same (t' t : Triangle float) :
  sameVector (ta t') (ta t) -> sameVector (tb t') (tb t) ->
  sameVector (tc t') (tc t) ->
  sameVector (getNormal t') (getNormal t).
Proof.
  intros Ha Hb Hc. unfold getNormal.
  assert (sameVector (cross (subVectors (tc t') (tb t')) (subVectors (ta t') (tb t')))
                     (cross (subVectors (tc t) (tb t)) (subVectors (ta t) (tb t))))
    as Ht by (apply cross_same; apply subVectors_same; assumption).
  cbv zeta. rewrite (lengthSq_same Ht).
  destruct (_ >? _)%num; [apply multiplyScalar_same, Ht|apply sameVector_refl].
Qed.

(** *** Arrays up to the sign of zero *)

Lemma elem_same (a' a : list float) (j : nat) :
  Forall2 sameNumber a' a -> sameNumber (elem a' j) (elem a j).
Proof.
  unfold elem. intros Hs. revert j.
  induction Hs as [|x' x a' a Hx _ IH]; intros [|j]; cbn;
    auto using sameNumber_refl.
Qed.

Lemma fromBufferAttribute_same (a' a : list float) (k : Key) :
  Forall2 sameNumber a' a ->
  sameVector (fromBufferAttribute a' k) (fromBufferAttribute a k).
Proof.
  intros Hs. destruct k as [i|]; [|apply sameVector_refl].
  repeat split; cbn; apply elem_same, Hs.
Qed.

Lemma Forall2_same_refl (a : list float) : Forall2 sameNumber a a.
Proof. induction a; constructor; auto using sameNumber_refl. Qed.

Lemma store_same (a' a : list float) (j : nat) (v' v : float) :
  Forall2 sameNumber a' a -> sameNumber v' v ->
  Forall2 sameNumber (store a' j v') (store a j v).
Proof.
  intros Hs Hv. revert j.
  induction Hs as [|x' x a' a Hx Hs IH]; intros [|j]; cbn; constructor; auto.
  apply fround_same, Hv.
Qed.

Lemma setXYZ_same (a' a : list float) (k : Key) (u' u : Vector3 float) :
  Forall2 sameNumber a' a -> sameVector u' u ->
  Forall2 sameNumber (setXYZ a' k (vx u') (vy u') (vz u'))
                     (setXYZ a k (vx u) (vy u) (vz u)).
Proof.
  intros Hs (Hx & Hy & Hz). destruct k as [i|]; [|exact Hs].
  cbn. repeat apply store_same; assumption.
Qed.

(** A write of the number an element of [a] is, into [a'], keeps [a'] the
    same as [a]. *)
Lemma store_kept (a' a : list float) (j : nat) (v : float) :
  Forall2 sameNumber a' a ->
  (j < length a -> sameNumber (Math_fround v) (elem a j)) ->
  Forall2 sameNumber (store a' j v) a.
Proof.
  unfold elem. intros Hs. revert j.
  induction Hs as [|x' x a' a Hx Hs IH]; intros [|j] Hv; cbn in *; constructor; auto.
  - apply Hv. lia.
  - apply IH. intros Hj. apply Hv. lia.
Qed.

(** *** The normal refresh reads numbers *)

Lemma sumOfNormals_same (indexAttr : list nat) (pos' pos : list float) (l : list nat) :
  Forall2 sameNumber pos' pos ->
  forall acc' acc : Vector3 float,
  sameVector acc' acc ->
  sameVector
    (fold_left (fun tempVec tri =>
        let i3 := (tri * 3)%nat in
        let triangle :=
          mkTriangle (fromBufferAttribute pos' (getX indexAttr (i3 + 0)))
                     (fromBufferAttribute pos' (getX indexAttr (i3 + 1)))
                     (fromBufferAttribute pos' (getX indexAttr (i3 + 2))) in
        v_add tempVec (getNormal triangle)) l acc')
    (fold_left (fun tempVec tri =>
        let i3 := (tri * 3)%nat in
        let triangle :=
          mkTriangle (fromBufferAttribute pos (getX indexAttr (i3 + 0)))
                     (fromBufferAttribute pos (getX indexAttr (i3 + 1)))
                     (fromBufferAttribute pos (getX indexAttr (i3 + 2))) in
        v_add tempVec (getNormal triangle)) l acc).
Proof.
  intros Hs. induction l as [|tri l IH]; intros acc' acc Hacc; cbn [fold_left].
  - exact Hacc.
  - apply IH. apply v_add_same; [exact Hacc|].
    apply getNormal_same; cbn [ta tb tc]; apply fromBufferAttribute_same, Hs.
Qed.

Lemma vertexNormal_same (indexAttr : list nat) (pos' pos : list float) (arr : list Z) :
  Forall2 sameNumber pos' pos ->
  sameVector (vertexNormal indexAttr pos' arr) (vertexNormal indexAttr pos arr).
Proof.
  intros Hs. unfold vertexNormal. apply multiplyScalar_same.
  apply sumOfNormals_same; [exact Hs|apply sameVector_refl].
Qed.

(** *** The displacement loop at intensity zero *)

Lemma mul_finite_zero (d z : float) :
  finite d -> signedZero z -> signedZero (d * z).
Proof.
  unfold finite, signedZero. rewrite mul_spec. intros Fd (s & ->).
  destruct (Prim2SF d) as [sd|sd| |sd md ed]; try contradiction; cbn; eauto.
Qed.

Lemma add_zero_same (x z : float) :
  finite x -> signedZero z -> sameNumber (x + z) x.
Proof.
  unfold finite, sameNumber, signedZero. intros Fx (s & Ez).
  destruct (Prim2SF x) as [sx|sx| |sx mx ex] eqn:Ex; try contradiction.
  - right. split; [|eauto]. rewrite add_spec, Ex, Ez.
    destruct sx, s; cbn; eauto.
  - left. apply Prim2SF_inj. rewrite add_spec, Ex, Ez. reflexivity.
Qed.

Lemma zero_intensity_coordinate (x d w z : float) :
  finite x -> finite d -> finite w -> signedZero z ->
  sameNumber (x + d * (w * z)) x.
Proof.
  intros Fx Fd Fw Hz. apply add_zero_same; [exact Fx|].
  apply mul_finite_zero; [exact Fd|]. apply mul_finite_zero; assumption.
Qed.

Lemma sameNumber_eqb (a b : float) :
  is_nan b = false -> sameNumber a b -> (a =? b) = true.
Proof.
  intros Hb [->|((s & Ea) & (s' & Eb))]; rewrite eqb_spec; unfold SFeqb.
  - rewrite SFcompare_refl; [reflexivity|]. apply is_nan_false, Hb.
  - rewrite Ea, Eb. reflexivity.
Qed.

Lemma Forall_elem (P : float -> Prop) (a : list float) (j : nat) :
  Forall P a -> j < length a -> P (elem a j).
Proof.
  unfold elem. intros Ha Hj. rewrite Forall_forall in Ha. apply Ha, nth_In, Hj.
Qed.

Section ZeroIntensity.
Variable indexAttr : list nat.
Variables tempVec2 tempVec3 : Vector3 float.
Variable p : Params float.
Variable pos0 : list float.
Hypothesis intensity_zero : signedZero (intensity p).
Hypothesis pos0_finite : Forall finite pos0.
Hypothesis pos0_float32 : Forall float32 pos0.
Hypothesis direction_finite : finiteVector tempVec3.

Lemma beyondBrush_same (pos : list float) (k : Key) :
  Forall2 sameNumber pos pos0 ->
  beyondBrush tempVec2 p pos k = beyondBrush tempVec2 p pos0 k.
Proof.
  intros Hs. unfold beyondBrush.
  rewrite (distanceTo_same tempVec2 (fromBufferAttribute_same k Hs)). reflexivity.
Qed.

Lemma falloff_same (pos : list float) (k : Key) :
  Forall2 sameNumber pos pos0 ->
  falloff tempVec2 p pos k = falloff tempVec2 p pos0 k.
Proof.
  intros Hs. unfold falloff.
  rewrite (distanceTo_same tempVec2 (fromBufferAttribute_same k Hs)). reflexivity.
Qed.

Lemma moveVertex_zero_intensity (pos : list float) (k : Key) :
  Forall2 sameNumber pos pos0 ->
  (beyondBrush tempVec2 p pos0 k = false -> finite (falloff tempVec2 p pos0 k)) ->
  Forall2 sameNumber (moveVertex tempVec2 tempVec3 p k pos) pos0.
Proof.
  intros Hs Hw. unfold moveVertex. rewrite (beyondBrush_same k Hs).
  destruct (beyondBrush tempVec2 p pos0 k); [exact Hs|].
  specialize (Hw eq_refl). rewrite <- (falloff_same k Hs) in Hw.
  destruct k as [i|]; [|exact Hs].
  destruct direction_finite as (Dx & Dy & Dz).
  pose proof (Forall2_length Hs) as Hlen.
  assert (forall j d, finite d -> j < length pos0 ->
            sameNumber (Math_fround (elem pos j + d * (falloff tempVec2 p pos (Some i) * intensity p)))
                       (elem pos0 j)) as Hco.
  { intros j d Fd Hj.
    pose proof (elem_same j Hs) as Hj'.
    pose proof (Forall_elem pos0_finite Hj) as Fj.
    pose proof (Forall_elem pos0_float32 Hj) as Sj.
    apply fround_kept; [exact Sj|].
    apply sameNumber_trans with (elem pos j); [|exact Hj'].
    apply zero_intensity_coordinate; auto.
    apply (sameNumber_finite Hj' Fj). }
  cbn [setXYZ]. unfold pushed. cbn [vx vy vz addScaledVector fromBufferAttribute].
  apply store_kept; [apply store_kept; [apply store_kept|]|]; auto.
Qed.

Lemma fold_zero_intensity (l : list nat) : forall pos : list float,
  Forall2 sameNumber pos pos0 ->
  (forall i, In i l -> beyondBrush tempVec2 p pos0 (getX indexAttr i) = false ->
     finite (falloff tempVec2 p pos0 (getX indexAttr i))) ->
  Forall2 sameNumber
    (fold_left (fun posAttr i => moveVertex tempVec2 tempVec3 p (getX indexAttr i) posAttr)
               l pos) pos0.
Proof.
  induction l as [|i l IH]; intros pos Hs Hw; cbn; [exact Hs|].
  apply IH.
  - apply moveVertex_zero_intensity; [exact Hs|]. apply Hw. left. reflexivity.
  - intros j Hj. apply Hw. right. exact Hj.
Qed.

End ZeroIntensity.

(** The same number compares equal. *)
Lemma same_compares_equal (a' a : list float) :
  Forall finite a -> Forall2 sameNumber a' a ->
  Forall2 (fun x' x => sameNumber x' x /\ (x' =? x) = true) a' a.
Proof.
  intros Hfin Hs. induction Hs as [|x' x a' a Hx Hs IH]; constructor.
  - split; [exact Hx|]. apply sameNumber_eqb; [|exact Hx].
    apply Forall_inv in Hfin. apply is_nan_false. intros E.
    unfold finite in Hfin. rewrite E in Hfin. exact Hfin.
  - apply IH. apply Forall_inv_tail in Hfin. exact Hfin.
Qed.

(** A stroke whose intensity is zero leaves every position the number it
    was. *)
Lemma stroke_zero_intensity {C : Collaborators float}
    (p : Params float) (m : Mesh float) (hit : Hit float) :
  signedZero (intensity p) -> finiteStroke p m hit ->
  Forall2 sameNumber (position (stroke p m hit)) (position (geometry m)).
Proof.
  intros Hz (Hfin & H32 & Hdir & Hw).
  rewrite stroke_position. unfold strokeDisplacement, displacementPass.
  cbv zeta. rewrite displacementPass_moveVertex. cbn [fst].
  apply fold_zero_intensity; auto using Forall2_same_refl.
  intros i Hi. apply Hw. apply new_Set_In, Hi.
Qed.

End Float64Facts.

(** ** Binary64: the region test where its arithmetic is exact *)

Module ExactlyFacts.
Import PrimFloat FloatOps FloatAxioms SpecFloat.
Import Float64 Binary64 Float64Facts Exactly.

(** *** The order of finite values *)

Lemma digits_bounds (m : positive) :
  (2 ^ (Zpos (digits2_pos m) - 1) <= Zpos m < 2 ^ Zpos (digits2_pos m))%Z.
Proof.
  induction m as [m IH|m IH|]; cbn [digits2_pos].
  - rewrite Pos2Z.inj_succ.
    replace (Z.succ (Zpos (digits2_pos m)) - 1)%Z with (Z.succ (Zpos (digits2_pos m) - 1))%Z by lia.
    rewrite !Z.pow_succ_r by lia. lia.
  - rewrite Pos2Z.inj_succ.
    replace (Z.succ (Zpos (digits2_pos m)) - 1)%Z with (Z.succ (Zpos (digits2_pos m) - 1))%Z by lia.
    rewrite !Z.pow_succ_r by lia. lia.
  - cbn. lia.
Qed.

Lemma bounded_bounds (m : positive) (e : Z) :
  bounded prec emax m e = true ->
  (-1074 <= e)%Z /\ (Zpos m < 2 ^ 53)%Z /\ ((-1074 < e)%Z -> (2 ^ 52 <= Zpos m)%Z).
Proof.
  unfold bounded, canonical_mantissa, fexp, emin, prec, emax.
  intros H. apply andb_prop in H. destruct H as [H _]. apply Z.eqb_eq in H.
  pose proof (digits_bounds m) as [Hlo Hhi].
  set (d := Zpos (digits2_pos m)) in *.
  assert (d <= 53)%Z as Hd by lia.
  split; [lia|]. split.
  - apply Z.lt_le_trans with (2 ^ d)%Z; [exact Hhi|].
    apply Z.pow_le_mono_r; lia.
  - intros He. assert (d = 53)%Z as E by lia. rewrite E in Hlo. exact Hlo.
Qed.

Lemma magnitude_compare (m1 : positive) (e1 : Z) (m2 : positive) (e2 : Z) :
  bounded prec emax m1 e1 = true -> bounded prec emax m2 e2 = true ->
  match Z.compare e1 e2 with
  | Lt => Lt
  | Gt => Gt
  | Eq => Pos.compare_cont Eq m1 m2
  end = Z.compare (Zpos m1 * 2 ^ (e1 + 1074)) (Zpos m2 * 2 ^ (e2 + 1074)).
Proof.
  intros H1 H2.
  destruct (bounded_bounds _ _ H1) as (Ha1 & Hb1 & Hc1).
  destruct (bounded_bounds _ _ H2) as (Ha2 & Hb2 & Hc2).
  assert (forall a b m n : Z, (0 <= a < b)%Z -> (0 < m < 2 ^ 53)%Z -> (2 ^ 52 <= n)%Z ->
            (m * 2 ^ a < n * 2 ^ b)%Z) as Hlt.
  { intros a b m n Hab Hm Hn.
    apply Z.lt_le_trans with (2 ^ 53 * 2 ^ a)%Z.
    - apply Z.mul_lt_mono_pos_r; [apply Z.pow_pos_nonneg; lia|lia].
    - apply Z.le_trans with (2 ^ 52 * 2 ^ b)%Z.
      + rewrite <- !Z.pow_add_r by lia. apply Z.pow_le_mono_r; lia.
      + apply Z.mul_le_mono_nonneg_r; [apply Z.pow_nonneg; lia|exact Hn]. }
  destruct (Z.compare_spec e1 e2) as [E|E|E]; symmetry.
  - subst e2. assert (0 < 2 ^ (e1 + 1074))%Z as HK by (apply Z.pow_pos_nonneg; lia).
    change (Pos.compare_cont Eq m1 m2) with (Pos.compare m1 m2).
    destruct (Pos.compare_spec m1 m2) as [E|E|E].
    + subst m2. apply Z.compare_refl.
    + apply Z.compare_lt_iff, Z.mul_lt_mono_pos_r; [exact HK|lia].
    + apply Z.compare_gt_iff, Z.mul_lt_mono_pos_r; [exact HK|lia].
  - apply Z.compare_lt_iff. apply Hlt; lia.
  - apply Z.compare_gt_iff. apply Hlt; lia.
Qed.

Lemma SFcompare_scaled (a b : spec_float) :
  valid_binary prec emax a = true -> valid_binary prec emax b = true ->
  finiteSF a -> finiteSF b ->
  SFcompare a b = Some (Z.compare (scaled a) (scaled b)).
Proof.
  intros Va Vb Fa Fb.
  destruct a as [sa|sa| |sa ma ea]; try contradiction;
    destruct b as [sb|sb| |sb mb eb]; try contradiction; cbn [SFcompare scaled].
  - reflexivity.
  - assert (0 < Zpos mb * 2 ^ (eb + 1074))%Z
      by (destruct (bounded_bounds _ _ Vb); apply Z.mul_pos_pos; [lia|apply Z.pow_pos_nonneg; lia]).
    destruct sb; f_equal; symmetry;
      [apply Z.compare_gt_iff|apply Z.compare_lt_iff]; lia.
  - assert (0 < Zpos ma * 2 ^ (ea + 1074))%Z
      by (destruct (bounded_bounds _ _ Va); apply Z.mul_pos_pos; [lia|apply Z.pow_pos_nonneg; lia]).
    destruct sa; f_equal; symmetry;
      [apply Z.compare_lt_iff|apply Z.compare_gt_iff]; lia.
  - assert (0 < Zpos ma * 2 ^ (ea + 1074))%Z
      by (destruct (bounded_bounds _ _ Va); apply Z.mul_pos_pos; [lia|apply Z.pow_pos_nonneg; lia]).
    assert (0 < Zpos mb * 2 ^ (eb + 1074))%Z
      by (destruct (bounded_bounds _ _ Vb); apply Z.mul_pos_pos; [lia|apply Z.pow_pos_nonneg; lia]).
    pose proof (@magnitude_compare ma ea mb eb Va Vb) as Hm.
    destruct sa, sb; f_equal.
    + replace (match (ea ?= eb)%Z with
               | Eq => CompOpp (Pos.compare_cont Eq ma mb)
               | Lt => Gt
               | Gt => Lt
               end)
        with (CompOpp (match (ea ?= eb)%Z with
                       | Eq => Pos.compare_cont Eq ma mb
                       | Lt => Lt
                       | Gt => Gt
                       end))
        by (destruct (ea ?= eb)%Z; reflexivity).
      rewrite Hm. rewrite <- Z.compare_antisym.
      rewrite <- Z.compare_opp. f_equal; lia.
    + symmetry. apply Z.compare_lt_iff. lia.
    + symmetry. apply Z.compare_gt_iff. lia.
    + rewrite Hm. f_equal; lia.
Qed.

Lemma leb_scaled (a b : float) :
  finite a -> finite b ->
  (PrimFloat.leb a b = true <-> (scaled (Prim2SF a) <= scaled (Prim2SF b))%Z).
Proof.
  intros Fa Fb. rewrite leb_spec. unfold SFleb.
  rewrite (@SFcompare_scaled _ _ (Prim2SF_valid a) (Prim2SF_valid b) Fa Fb).
  unfold Z.le. destruct (scaled (Prim2SF a) ?= scaled (Prim2SF b))%Z;
    split; congruence.
Qed.

(** *** Finite values as rational numbers *)

Import QArith Qpower Lqa.

Lemma valueOf_scaled (x : float) :
  finite x ->
  (valueOf x == inject_Z (scaled (Prim2SF x)) * 2 ^ (-1074))%Q.
Proof.
  unfold finite, valueOf. pose proof (Prim2SF_valid x) as V.
  destruct (Prim2SF x) as [s|s| |s m e]; try contradiction; intros _; cbn [scaled].
  - change (inject_Z 0) with 0%Q. ring.
  - destruct (bounded_bounds _ _ V) as (He & _).
    assert (2 ^ e == inject_Z (2 ^ (e + 1074)) * 2 ^ (-1074))%Q as ->.
    { rewrite Zpower_Qpower by lia. change (inject_Z 2) with 2%Q.
      rewrite <- Qpower_plus by discriminate. f_equiv. lia. }
    destruct s; rewrite !inject_Z_mult; change (inject_Z (-1)) with (-1)%Q;
      change (inject_Z 1) with 1%Q; ring.
Qed.

Lemma leb_valueOf (a b : float) :
  finite a -> finite b ->
  (PrimFloat.leb a b = true <-> (valueOf a <= valueOf b)%Q).
Proof.
  intros Fa Fb. rewrite (@leb_scaled a b Fa Fb).
  rewrite (@valueOf_scaled a Fa), (@valueOf_scaled b Fb).
  assert (0 < 2 ^ (-1074))%Q as HK by (apply Qpower_0_lt; reflexivity).
  rewrite Zle_Qle. symmetry. apply Qmult_le_r. exact HK.
Qed.

Lemma finite_number (x : float) : finite x -> is_nan x = false.
Proof.
  unfold finite. rewrite is_nan_false. intros F E. rewrite E in F. exact F.
Qed.

(** *** The clamp of [Box3.clampPoint], along one axis *)

Lemma square_le (u v : Q) :
  (0 <= u <= v \/ v <= u <= 0)%Q -> (u * u <= v * v)%Q.
Proof. intros [H|H]; nra. Qed.

Lemma clamp_axis (lo hi c : float) :
  finite lo -> finite hi -> finite c ->
  let x := js_max lo (js_min hi c) in
  finite x /\
  ((valueOf lo <= valueOf hi)%Q ->
   (valueOf lo <= valueOf x <= valueOf hi)%Q) /\
  (forall p : Q, (valueOf lo <= p <= valueOf hi)%Q ->
     ((valueOf x - valueOf c) * (valueOf x - valueOf c) <=
      (p - valueOf c) * (p - valueOf c))%Q) /\
  (((valueOf x - valueOf c) * (valueOf x - valueOf c) <=
    (valueOf lo - valueOf c) * (valueOf lo - valueOf c))%Q \/
   ((valueOf x - valueOf c) * (valueOf x - valueOf c) <=
    (valueOf hi - valueOf c) * (valueOf hi - valueOf c))%Q).
Proof.
  intros Flo Fhi Fc x.
  destruct (js_min_spec hi c (@finite_number hi Fhi) (@finite_number c Fc))
    as (Hm & Hmh & Hmc).
  set (m := js_min hi c) in *.
  assert (finite m) as Fm by (destruct Hm as [-> | ->]; assumption).
  destruct (js_max_spec lo m (@finite_number lo Flo) (@finite_number m Fm))
    as (Hx & Hlx & Hmx).
  fold x in Hx, Hlx, Hmx.
  assert (finite x) as Fx by (destruct Hx as [-> | ->]; assumption).
  apply (@leb_valueOf m hi Fm Fhi) in Hmh. apply (@leb_valueOf m c Fm Fc) in Hmc.
  apply (@leb_valueOf lo x Flo Fx) in Hlx. apply (@leb_valueOf m x Fm Fx) in Hmx.
  assert (valueOf m == valueOf hi \/ valueOf m == valueOf c)%Q as Vm
    by (destruct Hm as [-> | ->]; [left|right]; reflexivity).
  assert (valueOf x == valueOf lo \/ valueOf x == valueOf m)%Q as Vx
    by (destruct Hx as [-> | ->]; [left|right]; reflexivity).
  clearbody x m. clear Hm Hx.
  split; [exact Fx|]. split; [|split].
  - intros Hbox. destruct Vx as [Vx|Vx]; lra.
  - intros p Hp. apply square_le.
    destruct Vx as [Vx|Vx], Vm as [Vm|Vm]; lra.
  - destruct Vx as [Vx|Vx]; [left; rewrite Vx; lra|].
    destruct Vm as [Vm|Vm]; [right; rewrite Vx, Vm; lra|].
    left. apply square_le. lra.
Qed.

(** *** The region test where its arithmetic is exact *)

Section RegionTest.
Variable sphere : Sphere float.
Variable box : Box3 float.
Hypothesis computed : computedExactly sphere box.

Local Abbreviation nearest := (clampPoint box (center sphere)).

Lemma containsPoint_exactly (q : Vector3 float) :
  q = nearest \/ In q (corners box) ->
  (containsPoint sphere q = true <-> inSphere sphere (pointOf q)).
Proof.
  intros Hq. destruct computed as (_ & _ & _ & (Fr & Vr) & Hd).
  destruct (Hd q Hq) as (Fd & Vd).
  change (containsPoint sphere q)
    with (PrimFloat.leb (distanceToSquared q (center sphere))
                        (PrimFloat.mul (radius sphere) (radius sphere))).
  rewrite (@leb_valueOf _ _ Fd Fr). unfold inSphere. rewrite Vd, Vr. reflexivity.
Qed.

Lemma intersectsBox_exactly :
  intersectsBox sphere box = true <-> inSphere sphere (pointOf nearest).
Proof.
  change (intersectsBox sphere box) with (containsPoint sphere nearest).
  apply containsPoint_exactly. left. reflexivity.
Qed.

Lemma nearest_inBox : validBox box -> inBox box (pointOf nearest).
Proof.
  destruct computed as ((Fcx & Fcy & Fcz) & (Flx & Fly & Flz) & (Fhx & Fhy & Fhz) & _).
  intros (Hx & Hy & Hz). unfold inBox. cbn [pointOf clampPoint clamp vx vy vz].
  split; [|split].
  - apply (clamp_axis _ _ _ Flx Fhx Fcx), Hx.
  - apply (clamp_axis _ _ _ Fly Fhy Fcy), Hy.
  - apply (clamp_axis _ _ _ Flz Fhz Fcz), Hz.
Qed.

Lemma nearest_is_nearest (q : Vector3 Q) :
  inBox box q -> inSphere sphere q -> inSphere sphere (pointOf nearest).
Proof.
  destruct computed as ((Fcx & Fcy & Fcz) & (Flx & Fly & Flz) & (Fhx & Fhy & Fhz) & _).
  intros (Hx & Hy & Hz). unfold inSphere, squaredDistance.
  cbn [pointOf clampPoint clamp vx vy vz].
  destruct (clamp_axis _ _ _ Flx Fhx Fcx) as (_ & _ & Nx & _).
  destruct (clamp_axis _ _ _ Fly Fhy Fcy) as (_ & _ & Ny & _).
  destruct (clamp_axis _ _ _ Flz Fhz Fcz) as (_ & _ & Nz & _).
  specialize (Nx _ Hx). specialize (Ny _ Hy). specialize (Nz _ Hz).
  cbv zeta in Nx, Ny, Nz. cbn [fmax fmin number] . lra.
Qed.

Lemma corners_reach_nearest :
  cornersInside sphere box -> inSphere sphere (pointOf nearest).
Proof.
  destruct computed as ((Fcx & Fcy & Fcz) & (Flx & Fly & Flz) & (Fhx & Fhy & Fhz) & _).
  unfold cornersInside. intros Hc.
  destruct (clamp_axis _ _ _ Flx Fhx Fcx) as (_ & _ & _ & Cx).
  destruct (clamp_axis _ _ _ Fly Fhy Fcy) as (_ & _ & _ & Cy).
  destruct (clamp_axis _ _ _ Flz Fhz Fcz) as (_ & _ & _ & Cz).
  cbv zeta in Cx, Cy, Cz.
  destruct Cx as [Cx|Cx], Cy as [Cy|Cy], Cz as [Cz|Cz];
  match goal with
  | _ : (_ <= (valueOf ?qx - _) * _)%Q, _ : (_ <= (valueOf ?qy - _) * _)%Q,
    _ : (_ <= (valueOf ?qz - _) * _)%Q |- _ =>
      specialize (Hc (Vec3 qx qy qz))
  end;
  (lapply Hc; [|cbn; tauto]);
  unfold inSphere, squaredDistance; cbn [pointOf clampPoint clamp vx vy vz];
  cbn [fmax fmin number]; intros Hin; lra.
Qed.

Lemma region_test_exactly :
  validBox box ->
  (intersectsBounds sphere box = CONTAINED <-> cornersInside sphere box) /\
  (intersectsBounds sphere box = NOT_INTERSECTED <-> ~ meets sphere box) /\
  (intersectsBounds sphere box = INTERSECTED <->
     meets sphere box /\ ~ cornersInside sphere box).
Proof.
  intros Hbox.
  assert (intersectsBox sphere box = true <-> meets sphere box) as Hmeet.
  { rewrite intersectsBox_exactly. split.
    - intros Hin. exists (pointOf nearest). split; [apply nearest_inBox, Hbox|exact Hin].
    - intros (q & Hq & Hin). apply (nearest_is_nearest Hq Hin). }
  assert (forallb (containsPoint sphere) (corners box) = true <->
          cornersInside sphere box) as Hcorn.
  { unfold cornersInside. rewrite forallb_forall.
    split; intros Hall q Hq; apply containsPoint_exactly; auto. }
  assert (cornersInside sphere box -> intersectsBox sphere box = true) as Hin
    by (intros Hc; apply intersectsBox_exactly, corners_reach_nearest, Hc).
  unfold intersectsBounds.
  destruct (intersectsBox sphere box) eqn:Ei.
  - assert (meets sphere box) by (apply Hmeet; reflexivity).
    destruct (forallb (containsPoint sphere) (corners box)) eqn:Ec.
    + assert (cornersInside sphere box) by (apply Hcorn; reflexivity).
      split; [|split]; split; try discriminate; try tauto.
    + assert (~ cornersInside sphere box) by (rewrite <- Hcorn; congruence).
      split; [|split]; split; try discriminate; try tauto.
  - assert (~ meets sphere box) by (rewrite <- Hmeet; congruence).
    assert (~ cornersInside sphere box)
      by (intros Hc; apply Hin in Hc; congruence).
    split; [|split]; split; try discriminate; try tauto.
Qed.

End RegionTest.
End ExactlyFacts.

(** X10, an index past the end of the index attribute, as the program runs.
    In binary64 such an index reads the vertex [undefined], whose distance to
    the brush centre is [NaN]; the test of line 326 lets it pass, the write
    of line 334 is lost, and the property [undefined] of [indexToTriangles]
    gets the number [~ ~ ( i / 3 )]: the positions stay, the object grows. *)
Theorem index_past_the_buffer_is_recorded_as_undefined
    (indexAttr : list nat) (tempVec2 tempVec3 : Vector3 PrimFloat.float)
    (p : Params PrimFloat.float)
    (posAttr : list PrimFloat.float) (indexToTriangles : list (Key * list Z)) (i : nat) :
  length indexAttr <= i ->
  displace indexAttr tempVec2 tempVec3 p (posAttr, indexToTriangles) i =
  (posAttr,
   obj_set indexToTriangles None
     (match obj_get indexToTriangles None with Some arr => arr | None => [] end
      ++ [ToInt32 (Z.of_nat (i / 3))])).
Proof.
  intros Hi.
  assert (getX indexAttr i = None) as Hx by (apply nth_error_None, Hi).
  rewrite displace_push; rewrite Hx; [reflexivity|].
  apply Float64Facts.beyondBrush_undefined.
Qed.

(** X14, a world matrix without inverse, as the program runs.  When
    [Matrix4.invert] answers the zero matrix, in binary64 the brush centre is
    (NaN, NaN, NaN) for every hit point, the region test answers
    [NOT_INTERSECTED] for every box, the query records nothing and the stroke
    returns the geometry unchanged. *)
Theorem singular_world_matrix_is_never_sculpted
    (C : Collaborators PrimFloat.float) (p : Params PrimFloat.float)
    (m : Mesh PrimFloat.float) (hit : Hit PrimFloat.float) :
  invert (matrixWorld m) = zero4 ->
  brushCenter m hit = Vec3 PrimFloat.nan PrimFloat.nan PrimFloat.nan /\
  (forall box, intersectsBounds (brushSphere p m hit) box = NOT_INTERSECTED) /\
  strokeIndices p m hit = [] /\
  stroke p m hit = geometry m.
Proof.
  intros Hsing.
  assert (brushCenter m hit = Vec3 PrimFloat.nan PrimFloat.nan PrimFloat.nan) as Hc.
  { unfold brushCenter. rewrite Hsing. apply Float64Facts.applyMatrix4_zero4. }
  assert (forall box, intersectsBounds (brushSphere p m hit) box = NOT_INTERSECTED)
    as Hnot.
  { intros box. unfold brushSphere. fold (brushCenter m hit). rewrite Hc.
    apply Float64Facts.intersectsBounds_nan. }
  assert (strokeIndices p m hit = []) as Hnil.
  { unfold strokeIndices, regionQuery.
    rewrite shapecast_pruned; [reflexivity|exact Hnot]. }
  split; [exact Hc|]. split; [exact Hnot|]. split; [exact Hnil|].
  apply stroke_without_indices, Hnil.
Qed.

(** X21, the wheel, as the program runs.  In binary64 the size the [wheel]
    listener stores is [NaN] or lies in [[0.05, 0.25]], whatever the event
    and the size before it; a [deltaY] that is [NaN] does store [NaN], which
    the clamp of line 214 lets through; the intensity is left alone. *)
Theorem wheel_size_in_binary64
    (deltaY : PrimFloat.float) (deltaMode : N) (p : Params PrimFloat.float) :
  let p' := onWheel deltaY deltaMode p in
  (PrimFloat.is_nan (size p') = true \/
   (PrimFloat.leb (lit 5 100) (size p') = true /\
    PrimFloat.leb (size p') (lit 25 100) = true)) /\
  size (onWheel PrimFloat.nan deltaMode p) = PrimFloat.nan /\
  intensity p' = intensity p.
Proof.
  intros p'. split; [|split; [|reflexivity]].
  - unfold p', onWheel. cbn [size]. apply Float64Facts.js_clamp.
    vm_compute. reflexivity.
  - unfold onWheel. cbn [size]. cbn [fadd fmul fmax fmin Float64.number].
    assert (forall d : PrimFloat.float,
              d = PrimFloat.nan ->
              Float64.js_max
                (Float64.js_min
                   (PrimFloat.add (size p) (PrimFloat.mul d (lit 5 10000)))
                   (lit 25 100))
                (lit 5 100) = PrimFloat.nan) as Hnan.
    { intros d ->. rewrite Float64Facts.mul_nan_l, Float64Facts.add_nan_r.
      reflexivity. }
    apply Hnan.
    destruct (N.eqb deltaMode 1), (N.eqb deltaMode 2);
      rewrite ?Float64Facts.mul_nan_l; reflexivity.
Qed.


(** C7 (as amended).  In binary64.  A stroke whose intensity is zero and that
    meets no infinity and no [NaN] leaves every coordinate of every vertex
    the number it was: the value it had, or a zero where it had a zero of
    the other sign; the two compare equal.  The recomputation is not
    skipped: when the region query recorded an index both [needsUpdate]
    flags are set, every vertex within the radius that a recorded index
    leads to is a key of [indexToTriangles], and the normal written for a
    key is, up to the sign of zeros, what lines 353-369 compute for its
    entry from the positions before the stroke. *)
Theorem zero_intensity_stroke_keeps_numbers
    (C : Collaborators PrimFloat.float) (p : Params PrimFloat.float)
    (m : Mesh PrimFloat.float) (hit : Hit PrimFloat.float) :
  Binary64.signedZero (intensity p) -> Binary64.finiteStroke p m hit ->
  let g := geometry m in
  let g' := stroke p m hit in
  let indices := strokeIndices p m hit in
  let indexToTriangles := snd (strokeDisplacement p m hit) in
  Forall2 (fun x' x => Binary64.sameNumber x' x /\ PrimFloat.eqb x' x = true)
          (position g') (position g) /\
  (indices <> [] ->
     normal_needsUpdate g' = true /\ position_needsUpdate g' = true) /\
  (forall i,
     In i indices ->
     beyondBrush (brushCenter m hit) p (position g) (getX (index g) i) = false ->
     In (getX (index g) i) (keys indexToTriangles)) /\
  (forall v arr,
     indices <> [] ->
     obj_get indexToTriangles (Some v) = Some arr ->
     v * 3 + 2 < length (normal g) ->
     Binary64.sameVector
       (fromBufferAttribute (normal g') (Some v))
       (stored (vertexNormal (index g) (position g) arr))).
Proof.
  intros Hz Hfin g g' indices indexToTriangles.
  pose proof (Float64Facts.stroke_zero_intensity Hz Hfin) as Hpos.
  split; [apply Float64Facts.same_compares_equal; [apply Hfin|exact Hpos]|].
  split; [|split].
  - intros Hrun. apply stroke_normal_refreshed, Hrun.
  - intros i Hi Hin. apply strokeDisplacement_keys. split; [|exact Hin].
    exists i. auto.
  - intros v arr Hrun Hget Hlen. unfold g'.
    rewrite (stroke_normal_at p m hit v Hrun Hget Hlen).
    apply Float64Facts.stored_same, Float64Facts.vertexNormal_same, Hpos.
Qed.




(** ** Executions of the scene *)

Module Executions.
Import PrimFloat Scene.
Local Open Scope float_scope.
Local Set Warnings "-inexact-float".

(** [Math.fround( 0.1 )] and the literals of lines 33, 34 and 213. *)
Example Math_fround_tenth :
  Float64.Math_fround 0.1 = 0.10000000149011612 /\
  (lit 1 10, lit 2 1000, lit 5 10000) = (0.1, 0.002, 0.0005).
Proof. split; vm_compute; reflexivity. Qed.

(** The region test on the three boxes of the tree, root first, and on the
    root for a brush far from the mesh. *)
Example region_test_on_the_tree :
  map (intersectsBounds (brushSphere params0 mesh hit))
      [ mkBox3 (Vec3 (-0.0625) 0 0) (Vec3 0.0625 0.125 0.03125);
        mkBox3 (Vec3 0 0 0) (Vec3 0.0625 0.0625 0);
        mkBox3 (Vec3 (-0.0625) 0 0) (Vec3 0 0.125 0.03125) ]
    = [INTERSECTED; CONTAINED; INTERSECTED] /\
  intersectsBounds (brushSphere params0 mesh farHit)
      (mkBox3 (Vec3 (-0.0625) 0 0) (Vec3 0.0625 0.125 0.03125))
    = NOT_INTERSECTED.
Proof. split; vm_compute; reflexivity. Qed.

(** A stroke of intensity zero on the scene: the positions stay, the normals
    of the four displaced vertices are recomputed. *)
Example zero_intensity_on_the_scene :
  let g' := stroke (C:=world cornerOffsets) (mkParams (lit 1 10) 0) mesh hit in
  position g' = positions /\
  normal g' = [ 0.21821789443492889; 0.10910894721746445; 0.9364357590675354;
                0; 0; 1;  0; 0; 1;  0; 0; 1;  0; 0; 1 ].
Proof. split; vm_compute; reflexivity. Qed.

(** The wheel turned far down stores the lower end of the range, the wheel
    turned far up the upper end. *)
Example wheel_on_the_scene :
  size (onWheel (-1000) 0 params0) = lit 5 100 /\
  size (onWheel 1000 0 params0) = 0.25 /\
  size (onWheel 16 1 params0) = 0.25.
Proof. repeat split; vm_compute; reflexivity. Qed.

(** On the scene, whose mesh is not transformed, the direction of line 319 is
    the hit normal taken into mesh space. *)
Example reference_direction_on_the_scene :
  referenceDirection mesh hit = Vec3 0 0 1 /\
  directionIntoMeshSpace mesh hit = Vec3 0 0 1.
Proof. split; vm_compute; reflexivity. Qed.

(** The scene is built so that both readings record what the same vertices
    and triangle numbers: the frame ends in the same mesh. *)
Lemma readings_agree :
  targetMesh (render (pressed cornerVertices false)) =
  targetMesh (render (pressed cornerOffsets false)) /\
  strokeDisplacement (C:=world cornerVertices) params0 mesh hit =
  strokeDisplacement (C:=world cornerOffsets) params0 mesh hit.
Proof. split; vm_compute; reflexivity. Qed.

Lemma frame_is_stroke :
  after = stroke (C:=world cornerOffsets) params0 mesh hit.
Proof. reflexivity. Qed.

(** C1 (the code departs from it).  Vertex 3 belongs to triangle 1 only and
    [indexToTriangles] records [[1]] for it, yet the normal the refresh
    writes for it is the face normal of triangle 0, the triangle whose number
    is the key [0] of that one-element array; the mean over the recorded
    triangle is another vector. *)
Theorem refreshed_normal_ignores_recorded_triangles :
  obj_get (snd (strokeDisplacement (C:=world cornerOffsets) params0 mesh hit))
          (Some 3%nat) = Some [1%Z] /\
  fromBufferAttribute (normal after) (Some 3%nat) =
    Vec3 0.051225051283836365 0.051225051283836365 0.99737256765365601 /\
  fromBufferAttribute (normal after) (Some 3%nat) =
    stored (getNormal (setTriangle indexBuffer (position after) 0)) /\
  stored (meanOfRecordedNormals indexBuffer (position after) [1%Z]) =
    Vec3 0.3969322144985199 0.22664310038089752 0.88942551612854004.
Proof. repeat split; vm_compute; reflexivity. Qed.

(** C2 (the code departs from it).  The six recorded indices are distinct, so
    the set drops none; indices 0 and 4 both lead to vertex 0, which is
    therefore displaced twice, the second time from the position the first
    displacement left and not from its position before the stroke. *)
Theorem shared_vertex_displaced_twice :
  let indices := strokeIndices (C:=world cornerOffsets) params0 mesh hit in
  let tempVec2 := brushCenter mesh hit in
  let tempVec3 := referenceDirection mesh hit in
  indices = [0; 1; 2; 3; 4; 5]%nat /\
  new_Set indices = indices /\
  map (getX indexBuffer) (new_Set indices) =
    [Some 0; Some 1; Some 2; Some 3; Some 0; Some 4]%nat /\
  fromBufferAttribute positions (Some 0%nat) = Vec3 0 0 0 /\
  fromBufferAttribute
    (fst (displacementPass indexBuffer tempVec2 tempVec3 params0 [0; 1; 2; 3]%nat
            positions)) (Some 0%nat) = Vec3 0 0 0.0020000000949949026 /\
  fromBufferAttribute (position after) (Some 0%nat) =
    Vec3 0 0 0.0039599998854100704.
Proof. repeat split; vm_compute; reflexivity. Qed.

(** C4 (the code departs from it).  Vertex 0 lies at the brush centre, at
    distance 0 from it, and the position stated for it is its old position
    plus the reference direction scaled by [(1 - 0 / radius) * intensity];
    the frame leaves it almost twice as far along that direction. *)
Theorem shared_vertex_position_differs_from_stated :
  let tempVec2 := brushCenter mesh hit in
  let tempVec3 := referenceDirection mesh hit in
  distanceTo (fromBufferAttribute positions (Some 0%nat)) tempVec2 = 0 /\
  statedPosition tempVec2 tempVec3 params0 positions (Some 0%nat) =
    Vec3 0 0 0.0020000000949949026 /\
  fromBufferAttribute (position after) (Some 0%nat) =
    Vec3 0 0 0.0039599998854100704 /\
  PrimFloat.eqb 0.0039599998854100704 0.0020000000949949026 = false.
Proof. repeat split; vm_compute; reflexivity. Qed.

(** C5 (as stated, refuted).  On the mesh of one wide triangle, with the
    parameters of the example, the region query records the three indices of
    the triangle and every vertex fails the distance test: no vertex moves
    and [indexToTriangles] stays empty, yet the block of lines 347-377 runs
    and sets both flags.  With the intensity at zero the block runs as well,
    rewriting the normal of vertex 0 over an unchanged position array.  On
    the fan, index 5 is recorded and leads to vertex 4, and vertex 4 has no
    key in [indexToTriangles]: not every vertex the region query touched is
    in the incidence map. *)
Lemma refresh_runs_unmoved_and_misses_touched_vertex :
  (strokeIndices (C:=wideWorld) params0 wideMesh hit = [0; 1; 2]%nat /\
   map (fun i => beyondBrush (brushCenter wideMesh hit) params0 widePositions
                   (getX (index wideGeometry) i)) [0; 1; 2]%nat
     = [true; true; true] /\
   position (stroke (C:=wideWorld) params0 wideMesh hit) = widePositions /\
   snd (strokeDisplacement (C:=wideWorld) params0 wideMesh hit) = [] /\
   position_needsUpdate wideGeometry = false /\
   normal_needsUpdate wideGeometry = false /\
   position_needsUpdate (stroke (C:=wideWorld) params0 wideMesh hit) = true /\
   normal_needsUpdate (stroke (C:=wideWorld) params0 wideMesh hit) = true) /\
  (strokeIndices (C:=world cornerOffsets) still mesh hit <> [] /\
   position (stroke (C:=world cornerOffsets) still mesh hit) = positions /\
   normal_needsUpdate (stroke (C:=world cornerOffsets) still mesh hit) = true /\
   fromBufferAttribute normals (Some 0%nat) = Vec3 0 0 1 /\
   fromBufferAttribute
     (normal (stroke (C:=world cornerOffsets) still mesh hit)) (Some 0%nat) =
     Vec3 0.21821789443492889 0.10910894721746445 0.9364357590675354) /\
  (strokeIndices (C:=world cornerOffsets) params0 mesh hit <> [] /\
   normal_needsUpdate after = true /\
   ~ refreshCoversTouched (C:=world cornerOffsets) params0 mesh hit).
Proof.
  split; [|split].
  - repeat split; vm_compute; reflexivity.
  - split; [vm_compute; discriminate|]. repeat split; vm_compute; reflexivity.
  - split; [vm_compute; discriminate|]. split; [vm_compute; reflexivity|].
    intros Hall. specialize (Hall 5%nat).
    assert (In 5%nat (strokeIndices (C:=world cornerOffsets) params0 mesh hit)) as Hin
      by (vm_compute; tauto).
    apply Hall in Hin. vm_compute in Hin.
    repeat (destruct Hin as [Hin|Hin]; [discriminate|]). exact Hin.
Qed.

(** What the hypothesis of C6 is for: were the mesh turned a quarter turn
    about z, which the example never does, line 319 would yield for a hit
    normal along x the direction y, the normal transformed by the world
    matrix, where the inverse matrix that line 318 applies to the hit point
    gives -y. *)
Example direction_on_a_turned_mesh :
  referenceDirection turnedMesh turnedHit = Vec3 0 1 0 /\
  referenceDirection turnedMesh turnedHit =
    transformDirection (face_normal turnedHit) (matrixWorld turnedMesh) /\
  directionIntoMeshSpace turnedMesh turnedHit = Vec3 0 (-1) 0 /\
  PrimFloat.eqb 1 (-1) = false.
Proof. repeat split; vm_compute; reflexivity. Qed.



(** On a sphere and a box with coordinates that are multiples of 1/8 the
    arithmetic of the region test is exact. *)
Lemma dyadic_computedExactly : Exactly.computedExactly halfSphere dyadicBox.
Proof.
  split; [vm_compute; tauto|]. split; [vm_compute; tauto|].
  split; [vm_compute; tauto|]. split.
  - split; [vm_compute; exact I|vm_compute; reflexivity].
  - intros q [->|Hin].
    + split; [vm_compute; exact I|vm_compute; reflexivity].
    + cbn in Hin.
      repeat (destruct Hin as [<-|Hin];
              [split; [vm_compute; exact I|vm_compute; reflexivity]|]).
      destruct Hin.
Qed.

Lemma dyadic_validBox : Exactly.validBox dyadicBox.
Proof. repeat split; vm_compute; discriminate. Qed.


(** C7 (as stated, refuted).  With the intensity at zero, the first
    coordinate of vertex 0, a negative zero before the stroke, is a positive
    zero after it.  And on the fan, where the stroke leaves the position
    array as it was and the refresh runs, vertex 3 belongs to triangle 1
    only and [indexToTriangles] records [[1]] for it; the normal the refresh
    writes for it is the face normal of triangle 0, (0, 0, 1), and not the
    normal computed from the unchanged positions of the triangle recorded
    for it. *)
Lemma zero_intensity_flips_zero_and_ignores_recorded_triangle :
  (get_sign (elem signedPositions 0) = true /\
   get_sign (elem (position (stroke (C:=world cornerOffsets) still signedMesh hit)) 0)
     = false /\
   position (stroke (C:=world cornerOffsets) still signedMesh hit) = positions) /\
  (let g' := stroke (C:=world cornerOffsets) still mesh hit in
   position g' = positions /\
   normal_needsUpdate g' = true /\
   obj_get (snd (strokeDisplacement (C:=world cornerOffsets) still mesh hit))
           (Some 3%nat) = Some [1%Z] /\
   fromBufferAttribute (normal g') (Some 3%nat) =
     stored (getNormal (setTriangle indexBuffer positions 0)) /\
   fromBufferAttribute (normal g') (Some 3%nat) = Vec3 0 0 1 /\
   stored (meanOfRecordedNormals indexBuffer positions [1%Z]) =
     Vec3 0.43643578886985779 0.21821789443492889 0.87287157773971558).
Proof. repeat split; vm_compute; reflexivity. Qed.

(** The stroke of intensity zero on the fan with the negative zero meets no
    infinity and no [NaN]. *)
Lemma still_finiteStroke :
  Binary64.finiteStroke (C:=world cornerOffsets) still signedMesh hit.
Proof.
  split; [|split; [|split]].
  - repeat constructor; vm_compute; exact I.
  - repeat constructor; vm_compute; reflexivity.
  - vm_compute. tauto.
  - intros i Hi Hin. vm_compute in Hi.
    repeat (destruct Hi as [<-|Hi];
            [first [vm_compute; exact I | vm_compute in Hin; discriminate Hin]|]).
    destruct Hi.
Qed.

Lemma zero_intensity_stroke_keeps_numbers_witness :
  Binary64.signedZero (intensity still) /\
  Binary64.finiteStroke (C:=world cornerOffsets) still signedMesh hit /\
  Forall2 (fun x' x => Binary64.sameNumber x' x /\ (x' =? x) = true)
    (position (stroke (C:=world cornerOffsets) still signedMesh hit))
    signedPositions.
Proof.
  assert (Binary64.signedZero (intensity still)) as Hz
    by (exists false; vm_compute; reflexivity).
  split; [exact Hz|]. split; [exact still_finiteStroke|].
  exact (proj1 (@zero_intensity_stroke_keeps_numbers
                  (world cornerOffsets) still signedMesh hit Hz still_finiteStroke)).
Defined.


(** The controllers of the scene keep the ranges declared to them, and the
    events of [abuse] carry numbers. *)
Lemma world_guiKeepsRange : Binary64.guiKeepsRange (C:=world cornerOffsets).
Proof.
  intros lo hi st v Hlh Hv. cbn [setValue world].
  apply Float64Facts.js_clamp_number'; assumption.
Qed.

Lemma abuse_carriesNumbers : Binary64.carriesNumbers abuse.
Proof.
  intros e He. unfold abuse in He.
  repeat (destruct He as [<-|He]; [first [exact I|vm_compute; reflexivity]|]).
  destruct He.
Qed.


Lemma idle_frames_leave_geometry_witness :
  framesIdle interrupted (pressed cornerOffsets false) /\
  position (geometry (targetMesh (run interrupted (pressed cornerOffsets false))))
    = positions /\
  normal (geometry (targetMesh (run interrupted (pressed cornerOffsets false))))
    = normals.
Proof.
  assert (framesIdle interrupted (pressed cornerOffsets false)) as Hidle.
  { repeat split; intros; try discriminate; left; reflexivity. }
  split; [exact Hidle|].
  exact (idle_frames_leave_geometry interrupted (pressed cornerOffsets false) Hidle).
Defined.

Lemma vertex_beyond_radius_keeps_position_witness :
  beyondBrush (brushCenter mesh hit) params0 positions (Some 4%nat) = true /\
  fromBufferAttribute (position after) (Some 4%nat) = Vec3 (-0.0625) 0.125 0.
Proof.
  assert (beyondBrush (brushCenter mesh hit) params0
            (position (geometry mesh)) (Some 4%nat) = true) as Hfar
    by (vm_compute; reflexivity).
  split; [exact Hfar|].
  exact (vertex_beyond_radius_keeps_position (C:=world cornerOffsets)
           params0 mesh hit (Some 4%nat) Hfar).
Defined.

Lemma empty_query_changes_nothing_witness :
  strokeIndices (C:=world cornerOffsets) params0 mesh farHit = [] /\
  stroke (C:=world cornerOffsets) params0 mesh farHit = fanGeometry.
Proof.
  assert (strokeIndices (C:=world cornerOffsets) params0 mesh farHit = []) as Hnone
    by (vm_compute; reflexivity).
  split; [exact Hnone|].
  exact (empty_query_changes_nothing (C:=world cornerOffsets) params0 mesh farHit Hnone).
Defined.

Lemma displacement_order_irrelevant_witness :
  Permutation [0; 1; 2; 3; 4; 5]%nat [5; 4; 3; 2; 1; 0]%nat /\
  fst (displacementPass indexBuffer (brushCenter mesh hit)
         (referenceDirection mesh hit) params0 [0; 1; 2; 3; 4; 5]%nat positions) =
  fst (displacementPass indexBuffer (brushCenter mesh hit)
         (referenceDirection mesh hit) params0 [5; 4; 3; 2; 1; 0]%nat positions).
Proof.
  assert (Permutation [0; 1; 2; 3; 4; 5]%nat [5; 4; 3; 2; 1; 0]%nat) as Hperm
    by exact (Permutation_rev [0; 1; 2; 3; 4; 5]%nat).
  split; [exact Hperm|].
  exact (displacement_order_irrelevant indexBuffer (brushCenter mesh hit)
           (referenceDirection mesh hit) params0 positions Hperm).
Defined.

Lemma vertex_displaced_once_gets_stated_position_witness :
  count_occ key_dec
    (map (getX indexBuffer)
       (new_Set (strokeIndices (C:=world cornerOffsets) params0 mesh hit)))
    (Some 1%nat) = 1%nat /\
  fromBufferAttribute (position after) (Some 1%nat) =
    Vec3 0.0625 0 0.00075000000651925802.
Proof.
  assert (count_occ key_dec
            (map (getX (index (geometry mesh)))
               (new_Set (strokeIndices (C:=world cornerOffsets) params0 mesh hit)))
            (Some 1%nat) = 1%nat) as Honce by (vm_compute; reflexivity).
  split; [exact Honce|].
  assert (beyondBrush (brushCenter mesh hit) params0
            (position (geometry mesh)) (Some 1%nat) = false) as Hin
    by (vm_compute; reflexivity).
  assert (1 * 3 + 2 < length (position (geometry mesh)))%nat as Hfit
    by (vm_compute; lia).
  exact (vertex_displaced_once_gets_stated_position (C:=world cornerOffsets)
           params0 mesh hit 1 Honce Hin Hfit).
Defined.

Lemma index_set_keeps_every_offset_witness :
  @triangleArgs float (world cornerOffsets) = cornerOffsets /\
  NoDup (trianglesUnder (boundsTree (geometry mesh))) /\
  new_Set (strokeIndices (C:=world cornerOffsets) params0 mesh hit) =
  strokeIndices (C:=world cornerOffsets) params0 mesh hit.
Proof.
  assert (@triangleArgs float (world cornerOffsets) = cornerOffsets) as Hargs
    by reflexivity.
  assert (NoDup (trianglesUnder (boundsTree (geometry mesh)))) as Hnd.
  { cbn. constructor; [intros [E|[]]; discriminate|].
    constructor; [intros []|constructor]. }
  split; [exact Hargs|]. split; [exact Hnd|].
  exact (proj2 (index_set_keeps_every_offset (C:=world cornerOffsets)
                  params0 mesh hit Hargs Hnd)).
Defined.

Lemma incidence_map_records_incident_triangles_witness :
  obj_get (snd (strokeDisplacement (C:=world cornerOffsets) params0 mesh hit))
          (Some 0%nat) = Some [0%Z; 1%Z] /\
  forall t, In t [0%Z; 1%Z] ->
    exists i, In i (strokeIndices (C:=world cornerOffsets) params0 mesh hit) /\
              getX (index (geometry mesh)) i = Some 0%nat /\
              t = ToInt32 (Z.of_nat (i / 3)) /\
              ((Z.of_nat i < 3 * 2 ^ 31)%Z -> t = Z.of_nat (i / 3)).
Proof.
  assert (obj_get (snd (strokeDisplacement (C:=world cornerOffsets) params0 mesh hit))
            (Some 0%nat) = Some [0%Z; 1%Z]) as Hget by (vm_compute; reflexivity).
  split; [exact Hget|].
  exact (proj2 (proj2 (incidence_map_records_incident_triangles
                         (C:=world cornerOffsets) params0 mesh hit (Some 0%nat) Hget))).
Defined.

Lemma index_out_of_range_moves_nothing_witness :
  getX indexBuffer 6 = None /\
  fst (displace indexBuffer (brushCenter mesh hit) (referenceDirection mesh hit)
         params0 (positions, []) 6) = positions.
Proof.
  split; [reflexivity|].
  exact (index_out_of_range_moves_nothing indexBuffer (brushCenter mesh hit)
           (referenceDirection mesh hit) params0 positions [] 6 I).
Defined.

Lemma index_past_the_buffer_is_recorded_as_undefined_witness :
  (length indexBuffer <= 6)%nat /\
  displace indexBuffer (brushCenter mesh hit) (referenceDirection mesh hit)
    params0 (positions, []) 6 = (positions, [(None, [2%Z])]).
Proof.
  assert (length indexBuffer <= 6)%nat as Hpast by (cbn; lia).
  split; [exact Hpast|].
  exact (index_past_the_buffer_is_recorded_as_undefined indexBuffer
           (brushCenter mesh hit) (referenceDirection mesh hit) params0 positions []
           Hpast).
Defined.

Lemma singular_world_matrix_is_never_sculpted_witness :
  invert (matrixWorld collapsedMesh) = zero4 /\
  stroke (C:=world cornerOffsets) params0 collapsedMesh hit = fanGeometry.
Proof.
  assert (invert (matrixWorld collapsedMesh) = zero4) as Hsing
    by (vm_compute; reflexivity).
  split; [exact Hsing|].
  exact (proj2 (proj2 (proj2 (singular_world_matrix_is_never_sculpted
                                (world cornerOffsets) params0 collapsedMesh hit
                                Hsing)))).
Defined.

Lemma stroke_ends_one_frame_after_release_witness :
  mouseState released = false /\
  buttonUp afterRelease /\
  targetMesh (run (frame :: afterRelease) released) = targetMesh (render released).
Proof.
  assert (mouseState released = false) as Hup by reflexivity.
  assert (buttonUp afterRelease) as Hquiet.
  { intros b [Hb|Hb]; repeat (destruct Hb as [Hb|Hb]; [discriminate Hb|]);
      destruct Hb. }
  split; [exact Hup|]. split; [exact Hquiet|].
  exact (proj1 (stroke_ends_one_frame_after_release released Hup Hquiet)).
Defined.

Lemma farHit_records_nothing :
  ~ (exists i, In i (strokeIndices (C:=world cornerOffsets) params0 mesh farHit) /\
               getX (index (geometry mesh)) i = Some 0%nat).
Proof.
  assert (strokeIndices (C:=world cornerOffsets) params0 mesh farHit = []) as Hnone
    by (vm_compute; reflexivity).
  intros (i & Hi & _). rewrite Hnone in Hi. destruct Hi.
Defined.


End Executions.

